(** * mihomo-monitor: the delay parser, the selection engine and the poll loop

    A shallow embedding of [main.py] and the properties its specification
    states about it.

    Python values that reach the program are decoded JSON bodies.  A [str]
    is a sequence of Unicode code points; a dict keeps insertion order and
    is an association list whose keys are [str] (keys of a decoded JSON
    object always are).  A JSON number decodes to an [int], or to a [float]
    when it has a fraction or an exponent; a [float] is an IEEE 754 value:
    a signed zero, a signed infinity, NaN, or a sign, a mantissa and an
    exponent.

    Two tables of the Python runtime are not part of the repository and are
    taken as parameters ([PyRuntime]): the text accepted by [int()] and the
    Unicode general category of a code point. *)

From Stdlib Require Import List ZArith NArith Lia Bool String Ascii Sorted
  Permutation SpecFloat.
Import ListNotations.
Local Open Scope Z_scope.

(** ** Strings and values *)

Definition char := N.
Definition str := list char.

(** The [str] spelled by an ASCII literal. *)
Definition lit (s : string) : str := map N_of_ascii (list_ascii_of_string s).

Definition str_eq_dec : forall a b : str, {a = b} + {a <> b} :=
  list_eq_dec N.eq_dec.

Definition str_eqb (a b : str) : bool :=
  if str_eq_dec a b then true else false.

#[warnings="-register-all"]
Inductive pyval :=
| PNone
| PBool (b : bool)
| PInt (z : Z)
| PFloat (f : spec_float)
| PStr (s : str)
| PList (l : list pyval)
| PDict (d : list (str * pyval)).

Definition dict := list (str * pyval).

(** [d.get(k)]: the value stored under [k], if any. *)
Fixpoint dict_get {V : Type} (d : list (str * V)) (k : str) : option V :=
  match d with
  | [] => None
  | (k', v) :: d' => if str_eq_dec k k' then Some v else dict_get d' k
  end.

(** [k in d]. *)
Definition dict_in {V : Type} (d : list (str * V)) (k : str) : bool :=
  match dict_get d k with Some _ => true | None => false end.

(** [d[k] = v]: an existing key keeps its position. *)
Fixpoint dict_set {V : Type} (d : list (str * V)) (k : str) (v : V)
  : list (str * V) :=
  match d with
  | [] => [(k, v)]
  | (k', v') :: d' =>
      if str_eq_dec k k' then (k', v) :: d' else (k', v') :: dict_set d' k v
  end.

(** The keys of a Python dict are pairwise distinct. *)
Definition unique_keys {V : Type} (d : list (str * V)) : Prop :=
  NoDup (map fst d).

(** Truth value of an object, as [if x] and [x or y] test it. *)
Definition truthy (v : pyval) : bool :=
  match v with
  | PNone => false
  | PBool b => b
  | PInt z => negb (z =? 0)
  | PFloat f => match f with S754_zero _ => false | _ => true end
  | PStr s => match s with [] => false | _ => true end
  | PList l => match l with [] => false | _ => true end
  | PDict d => match d with [] => false | _ => true end
  end.

(** [s == v] for a [str] [s]. *)
Definition str_equals (s : str) (v : pyval) : bool :=
  match v with
  | PStr s' => str_eqb s s'
  | _ => false
  end.

(** ** The Python runtime the program relies on *)

Class PyRuntime := {
  (** [int(s)] on a [str]: [None] stands for [ValueError]. *)
  int_of_str : str -> option Z;
  (** [unicodedata.category(ch)], a two-letter [str] such as "Lu". *)
  category : char -> str
}.

(** Decimal rendering of an integer, as [str(n)] and f-strings produce. *)
Fixpoint uint_digits (u : Decimal.uint) : str :=
  match u with
  | Decimal.Nil => []
  | Decimal.D0 u => 48%N :: uint_digits u
  | Decimal.D1 u => 49%N :: uint_digits u
  | Decimal.D2 u => 50%N :: uint_digits u
  | Decimal.D3 u => 51%N :: uint_digits u
  | Decimal.D4 u => 52%N :: uint_digits u
  | Decimal.D5 u => 53%N :: uint_digits u
  | Decimal.D6 u => 54%N :: uint_digits u
  | Decimal.D7 u => 55%N :: uint_digits u
  | Decimal.D8 u => 56%N :: uint_digits u
  | Decimal.D9 u => 57%N :: uint_digits u
  end.

Definition str_of_int (z : Z) : str :=
  match Z.to_int z with
  | Decimal.Pos u => uint_digits u
  | Decimal.Neg u => 45%N :: uint_digits u
  end.

(** ** Data model *)

Record Config := {
  controller_url : str;
  controller_secret : str;
  proxy_group : str;
  test_url : str;
  delay_timeout_ms : Z;
  auto_select_diff_ms : Z;
  monitor_interval_s : Z
}.

Record ProxyDelay := { name : str; delay_ms : Z }.

(** The warnings the parser and the client log.  The record of the
    signal handler (line 344) is written when a signal arrives, at no
    fixed point of a cycle; see [wait_for_stop]. *)
Inductive logrecord :=
| WarnDelayCheckFailed
| WarnUnexpectedShape (payload : dict).

(** ** Exceptions *)

Inductive exn :=
| ClientError                       (* no response: connection or timeout *)
| ClientResponseError (status : Z)  (* [raise_for_status] *)
| JSONError                         (* the body is not JSON *)
| TypeError
| AttributeError
| OverflowError.

Inductive result (A : Type) :=
| Ok (a : A)
| Raise (e : exn).
Arguments Ok {A} a.
Arguments Raise {A} e.

(** ** Response parser *)

Section Parser.
Context {rt : PyRuntime}.

(** [int(f)] for a finite float: its value, truncated toward zero. *)
Definition float_trunc (s : bool) (m : positive) (e : Z) : Z :=
  let a := if 0 <=? e then Z.pos m * 2 ^ e else Z.pos m / 2 ^ (- e) in
  if s then - a else a.

(** [_to_int]: [int(value)], with [TypeError] and [ValueError] turned
    into [None].  [int()] of an infinite float raises [OverflowError],
    which the [except] clause of line 84 does not name. *)
Definition _to_int (value : pyval) : result (option Z) :=
  match value with
  | PInt z => Ok (Some z)
  | PBool b => Ok (Some (if b then 1 else 0))
  | PFloat (S754_zero _) => Ok (Some 0)
  | PFloat (S754_finite s m e) => Ok (Some (float_trunc s m e))
  | PFloat S754_nan => Ok None
  | PFloat (S754_infinity _) => Raise OverflowError
  | PStr s => Ok (int_of_str s)
  | PNone | PList _ | PDict _ => Ok None
  end.

(** Lines 90-93: what the body of a loop does with a parsed delay. *)
Definition keep_entry (name : str) (delay_ms : option Z)
    (delays : list ProxyDelay) : list ProxyDelay :=
  match delay_ms with
  | None => delays
  | Some delay_ms =>
      if 0 <=? delay_ms
      then {| name := name; delay_ms := delay_ms |} :: delays
      else delays
  end.

(** The loop over [mapping.items()] of lines 88-93 and 97-102. *)
Fixpoint collect_items (items : dict) : result (list ProxyDelay) :=
  match items with
  | [] => Ok []
  | (name, delay) :: rest =>
      match _to_int delay with
      | Raise e => Raise e
      | Ok delay_ms =>
          match collect_items rest with
          | Raise e => Raise e
          | Ok delays => Ok (keep_entry name delay_ms delays)
          end
      end
  end.

(** The loop over [payload["proxies"]] of lines 107-118. *)
Fixpoint collect_proxies (items : list pyval) : result (list ProxyDelay) :=
  match items with
  | [] => Ok []
  | PDict item :: rest =>
      match dict_get item (lit "name") with
      | Some (PStr name) =>
          match _to_int (match dict_get item (lit "delay") with
                         | Some delay => delay
                         | None => PNone
                         end) with
          | Raise e => Raise e
          | Ok delay_ms =>
              match collect_proxies rest with
              | Raise e => Raise e
              | Ok delays => Ok (keep_entry name delay_ms delays)
              end
          end
      | _ => collect_proxies rest
      end
  | _ :: rest => collect_proxies rest
  end.

(** Lines 121-127: the payload read as one [{name, delay}] object. *)
Definition single_entry (payload : dict) : result (option ProxyDelay) :=
  if dict_in payload (lit "name") && dict_in payload (lit "delay") then
    match dict_get payload (lit "name"), dict_get payload (lit "delay") with
    | Some (PStr name), Some delay =>
        match _to_int delay with
        | Raise e => Raise e
        | Ok (Some delay_ms) =>
            if 0 <=? delay_ms
            then Ok (Some {| name := name; delay_ms := delay_ms |})
            else Ok None
        | Ok None => Ok None
        end
    | _, _ => Ok None
    end
  else Ok None.

(** Lines 96-130: what runs when the ["delays"] shape did not apply.  The
    guard of line 96 holds, the keys being [str]. *)
Definition parse_after_delays (payload : dict)
  : result (list ProxyDelay * list logrecord) :=
  match collect_items payload with
  | Raise e => Raise e
  | Ok (d :: delays) => Ok (d :: delays, [])
  | Ok [] =>
      match dict_get payload (lit "proxies") with
      | Some (PList items) =>
          match collect_proxies items with
          | Raise e => Raise e
          | Ok delays => Ok (delays, [])
          end
      | _ =>
          match single_entry payload with
          | Raise e => Raise e
          | Ok (Some d) => Ok ([d], [])
          | Ok None => Ok ([], [WarnUnexpectedShape payload])
          end
      end
  end.

(** [parse_group_delays]: the snapshot and the warnings logged, or the
    exception that leaves the parser. *)
Definition parse_group_delays (payload : dict)
  : result (list ProxyDelay * list logrecord) :=
  match dict_get payload (lit "delays") with
  | Some (PDict delays) =>
      match collect_items delays with
      | Raise e => Raise e
      | Ok delays => Ok (delays, [])
      end
  | _ => parse_after_delays payload
  end.

End Parser.

(** ** Name sanitizer *)

Definition safe_punct : list char := lit " .-_()/[]:".

(** The code points [str.strip()] removes: those of [str.isspace]. *)
Definition whitespace : list char :=
  [9; 10; 11; 12; 13; 28; 29; 30; 31; 32; 133; 160; 5760;
   8192; 8193; 8194; 8195; 8196; 8197; 8198; 8199; 8200; 8201; 8202;
   8232; 8233; 8239; 8287; 12288]%N.

Definition char_in (ch : char) (l : list char) : bool := existsb (N.eqb ch) l.

Definition isspace (ch : char) : bool := char_in ch whitespace.

Fixpoint lstrip (s : str) : str :=
  match s with
  | [] => []
  | ch :: rest => if isspace ch then lstrip rest else s
  end.

Definition rstrip (s : str) : str := rev (lstrip (rev s)).

Definition strip (s : str) : str := rstrip (lstrip s).

Section Sanitizer.
Context {rt : PyRuntime}.

(** The test of lines 137-142 on one character. *)
Definition keeps (ch : char) : bool :=
  if char_in ch safe_punct then true
  else
    match category ch with
    | [] => false
    | c0 :: _ => char_in c0 (lit "LNM")
    end.

(** The loop of lines 136-142. *)
Fixpoint cleaned (name : str) : str :=
  match name with
  | [] => []
  | ch :: rest => if keeps ch then ch :: cleaned rest else cleaned rest
  end.

Definition sanitize_name (name : str) : str := strip (cleaned name).

End Sanitizer.

(** ** Effects: the controller, the log and standard output *)

Inductive http_method := GET | PUT.

Record request := {
  method : http_method;
  url : str;
  headers : list (str * str);
  params : list (str * str);
  json : option pyval
}.

(** What the controller answers: nothing, or a status and a body ([None]
    when the body does not decode as JSON). *)
Inductive response :=
| Unreachable
| Reply (status : Z) (body : option pyval).

Inductive output :=
| Line (s : str)      (* [print(s)] *)
| Json (v : pyval).   (* [print(json.dumps(v, ensure_ascii=True))] *)

Inductive event :=
| Http (req : request) (resp : response)
| Logged (r : logrecord)
| Printed (o : output).

(** The world of one run: the answers the controller will give, in order
    (none left: unreachable); for each interval wait, whether a termination
    signal has ended it (none left: no signal); the events so far, latest
    first. *)
Record world := {
  script : list response;
  stops : list bool;
  events : list event
}.

Definition M (A : Type) : Type := world -> result A * world.

Definition ret {A} (a : A) : M A := fun w => (Ok a, w).

Definition raise {A} (e : exn) : M A := fun w => (Raise e, w).

Definition bind {A B} (m : M A) (k : A -> M B) : M B :=
  fun w =>
    match m w with
    | (Ok a, w') => k a w'
    | (Raise e, w') => (Raise e, w')
    end.

Notation "x <- m ;; k" := (bind m (fun x => k))
  (at level 61, m at next level, right associativity).
Notation "m ;;; k" := (bind m (fun _ => k))
  (at level 61, right associativity).

(** [try: m except Exception: h]. *)
Definition try_except {A} (m : M A) (h : exn -> M A) : M A :=
  fun w =>
    match m w with
    | (Ok a, w') => (Ok a, w')
    | (Raise e, w') => h e w'
    end.

(** The world after one more event. *)
Definition record (e : event) (w : world) : world :=
  {| script := script w; stops := stops w; events := e :: events w |}.

Definition emit (e : event) : M unit := fun w => (Ok tt, record e w).

Definition print (o : output) : M unit := emit (Printed o).

Definition logging (r : logrecord) : M unit := emit (Logged r).

(** The answer the controller gives to the next request. *)
Definition next_response (w : world) : response :=
  match script w with
  | [] => Unreachable
  | r :: _ => r
  end.

(** The world after [req] was sent and answered. *)
Definition sent (req : request) (w : world) : world :=
  {| script := tl (script w); stops := stops w;
     events := Http req (next_response w) :: events w |}.

(** [async with session.request(...) as resp]: the status and the body of
    the answer, [ClientError] when there is none. *)
Definition send (req : request) : M (Z * option pyval) :=
  fun w =>
    match next_response w with
    | Unreachable => (Raise ClientError, sent req w)
    | Reply status body => (Ok (status, body), sent req w)
    end.

(** [resp.raise_for_status()]. *)
Definition raise_for_status (status : Z) : M unit :=
  if status <? 400 then ret tt else raise (ClientResponseError status).

(** [await resp.json()]. *)
Definition resp_json (body : option pyval) : M pyval :=
  match body with
  | Some payload => ret payload
  | None => raise JSONError
  end.

(** [await asyncio.wait_for(stop_event.wait(), timeout)]: [true] when the
    event is set by the end of the wait, a signal having arrived during
    the cycle before it or during the wait itself; [false] on
    [asyncio.TimeoutError].  The record the handler logs is written the
    moment the signal arrives, at whatever point the cycle has reached,
    and is not among the events kept here. *)
Definition wait_for_stop : M bool :=
  fun w =>
    let stopped := match stops w with [] => false | b :: _ => b end in
    (Ok stopped,
     {| script := script w; stops := tl (stops w); events := events w |}).

(** ** Controller client *)

Fixpoint is_prefix (p s : str) : bool :=
  match p, s with
  | [], _ => true
  | _ :: _, [] => false
  | a :: p', b :: s' => N.eqb a b && is_prefix p' s'
  end.

(** [p in s] for two [str]. *)
Fixpoint is_substring (p s : str) : bool :=
  is_prefix p s || match s with [] => false | _ :: s' => is_substring p s' end.

Definition auth_headers (secret : str) : list (str * str) :=
  match secret with
  | [] => []
  | _ => [(lit "Authorization", lit "Bearer " ++ secret)]
  end.

Definition opt_int (o : option Z) : pyval :=
  match o with Some z => PInt z | None => PNone end.

(** [list.sort(key=lambda item: item.delay_ms)]: the sort is stable, so the
    sorted list is the one insertion from the right builds. *)
Fixpoint insert_by_delay (x : ProxyDelay) (l : list ProxyDelay)
  : list ProxyDelay :=
  match l with
  | [] => [x]
  | y :: l' =>
      if delay_ms x <=? delay_ms y then x :: l else y :: insert_by_delay x l'
  end.

Definition sort_by_delay (l : list ProxyDelay) : list ProxyDelay :=
  fold_right insert_by_delay [] l.

(** [{item.name: item.delay_ms for item in delays}]. *)
Definition delay_map_of (delays : list ProxyDelay) : list (str * Z) :=
  fold_left (fun m item => dict_set m (name item) (delay_ms item)) delays [].

(** [delay_map.get(key)] for an arbitrary key: lists and dicts are
    unhashable; no other non-[str] key equals a [str] key. *)
Definition delay_map_get (m : list (str * Z)) (key : pyval) : M (option Z) :=
  match key with
  | PStr s => ret (dict_get m s)
  | PList _ | PDict _ => raise TypeError
  | PNone | PBool _ | PInt _ | PFloat _ => ret None
  end.

Section Monitor.
Context {rt : PyRuntime}.

(** [parse_group_delays(payload)] on a decoded body.  A body that is not
    a dict fails at its first use: ["delays" in payload] on a value that
    is no container, [payload["delays"]] when the test succeeds on a
    [str] or a list, [payload.keys()] otherwise. *)
Definition parse_payload (payload : pyval) : M (list ProxyDelay) :=
  match payload with
  | PDict d =>
      match parse_group_delays d with
      | Ok (delays, records) =>
          fold_right (fun r k => logging r ;;; k) (ret delays) records
      | Raise e => raise e
      end
  | PStr s =>
      if is_substring (lit "delays") s then raise TypeError
      else raise AttributeError
  | PList l =>
      if existsb (str_equals (lit "delays")) l then raise TypeError
      else raise AttributeError
  | PNone | PBool _ | PInt _ | PFloat _ => raise TypeError
  end.

(** The request of [get_group_delays]. *)
Definition delay_request (config : Config) : request :=
  {| method := GET;
     url := controller_url config ++ lit "/group/" ++ proxy_group config
            ++ lit "/delay";
     headers := auth_headers (controller_secret config);
     params := [(lit "url", test_url config);
                (lit "timeout", str_of_int (delay_timeout_ms config))];
     json := None |}.

Definition get_group_delays (config : Config) : M (list ProxyDelay) :=
  try_except
    (resp <- send (delay_request config) ;;
     raise_for_status (fst resp) ;;;
     payload <- resp_json (snd resp) ;;
     parse_payload payload)
    (fun exc => logging WarnDelayCheckFailed ;;; ret []).

(** [payload.get("now")]: only a dict has [get]. *)
Definition get_now (payload : pyval) : M pyval :=
  match payload with
  | PDict d =>
      ret (match dict_get d (lit "now") with Some v => v | None => PNone end)
  | _ => raise AttributeError
  end.

(** The request of [get_current_proxy]. *)
Definition current_request (config : Config) : request :=
  {| method := GET;
     url := controller_url config ++ lit "/proxies/" ++ proxy_group config;
     headers := auth_headers (controller_secret config);
     params := [];
     json := None |}.

Definition get_current_proxy (config : Config) : M pyval :=
  resp <- send (current_request config) ;;
  raise_for_status (fst resp) ;;;
  payload <- resp_json (snd resp) ;;
  get_now payload.

(** The request of [switch_proxy]. *)
Definition switch_request (config : Config) (candidate : ProxyDelay)
  : request :=
  {| method := PUT;
     url := controller_url config ++ lit "/proxies/" ++ proxy_group config;
     headers := auth_headers (controller_secret config);
     params := [];
     json := Some (PDict [(lit "name", PStr (name candidate))]) |}.

Definition switch_proxy (config : Config) (candidate : ProxyDelay) : M unit :=
  resp <- send (switch_request config candidate) ;;
  raise_for_status (fst resp).

(** ** Selection engine *)

(** Lines 284-301: [should_switch] and [reason]. *)
Definition switch_decision (config : Config) (current : pyval)
    (current_delay : option Z) (best : ProxyDelay) : bool * str :=
  match current, current_delay with
  | PNone, _ =>
      (false, lit "current proxy not found, keeping best as target")
  | _, None => (false, lit "current delay unavailable, keeping current")
  | _, Some current_delay =>
      if negb (str_equals (name best) current)
         && (1000 <? current_delay)
         && (auto_select_diff_ms config <? current_delay - delay_ms best)
      then (true, lit "current slower than best and delay > 1000ms")
      else if current_delay <=? 1000
      then (false, lit "current delay <= 1000ms, keeping current")
      else (false, [])
  end.

Definition switched_result (current : pyval) (current_delay : option Z)
    (best : ProxyDelay) (reason : str) : dict :=
  [(lit "action", PStr (lit "switched"));
   (lit "from", current);
   (lit "to", PStr (name best));
   (lit "from_delay_ms", opt_int current_delay);
   (lit "to_delay_ms", PInt (delay_ms best));
   (lit "reason", PStr reason)].

Definition kept_result (current : pyval) (current_delay : option Z)
    (best : ProxyDelay) : dict :=
  [(lit "action", PStr (lit "kept"));
   (lit "current", current);
   (lit "delay_ms", opt_int current_delay);
   (lit "best", PStr (name best));
   (lit "best_delay_ms", PInt (delay_ms best))].

(** [sanitize_name] applied to [current], or to the empty [str] when
    [current] is falsy: iterating over an [int] or a [bool]
    raises; an unhashable [current] never gets this far. *)
Definition sanitize_current (current : pyval) : M str :=
  match (if truthy current then current else PStr []) with
  | PStr s => ret (sanitize_name s)
  | _ => raise TypeError
  end.

(** [f"{current_delay}ms"]. *)
Definition fmt_delay (current_delay : option Z) : str :=
  match current_delay with
  | Some z => str_of_int z
  | None => lit "None"
  end ++ lit "ms".

Definition tab : str := [9%N].

(** [auto_select_once].  The slice [delays[:10]] of line 282 is not read
    afterwards and is left out. *)
Definition auto_select_once (config : Config) (json_output : bool) : M unit :=
  current <- get_current_proxy config ;;
  delays <- get_group_delays config ;;
  let delays := sort_by_delay delays in
  match delays with
  | [] =>
      if json_output
      then print (Json (PDict [(lit "error", PStr (lit "no delay data"))]))
      else print (Line (lit "No delay data returned"))
  | best :: _ =>
      let delay_map := delay_map_of delays in
      current_delay <- (if truthy current
                        then delay_map_get delay_map current
                        else ret None) ;;
      let (should_switch, reason) :=
        switch_decision config current current_delay best in
      result <- (if should_switch && negb (str_equals (name best) current)
                 then switch_proxy config best ;;;
                      ret (switched_result current current_delay best reason)
                 else ret (kept_result current current_delay best)) ;;
      if json_output then print (Json (PDict result))
      else if match dict_get result (lit "action") with
              | Some action => str_equals (lit "switched") action
              | None => false
              end
      then
        from_name <- sanitize_current current ;;
        let to_name := sanitize_name (name best) in
        print (Line (lit "switched" ++ tab ++ from_name ++ tab
                     ++ fmt_delay current_delay ++ lit " -> "
                     ++ str_of_int (delay_ms best) ++ lit "ms" ++ tab
                     ++ to_name))
      else
        keep_name <- sanitize_current current ;;
        print (Line (lit "kept" ++ tab ++ fmt_delay current_delay ++ tab
                     ++ keep_name))
  end.

(** ** Poll loop *)

(** [monitor_loop].  The handlers registered at lines 347-349 set
    [stop_event] when a signal arrives; the loop reads it after each wait
    only, and [wait_for_stop] tells whether it was set by then.  [fuel]
    bounds the number of cycles run; [None] is a loop still running when
    it is used up. *)
Fixpoint monitor_loop (fuel : nat) (config : Config) (json_output : bool)
  : M (option unit) :=
  match fuel with
  | O => ret None
  | S fuel' =>
      auto_select_once config json_output ;;;
      stopped <- wait_for_stop ;;
      if stopped then ret (Some tt)
      else monitor_loop fuel' config json_output
  end.

End Monitor.

(** ** The one-shot commands *)

Section Commands.
Context {rt : PyRuntime}.

(** [sanitize_name(v)] on an arbitrary object: iterating over anything but
    a [str] raises (an unhashable object never gets this far). *)
Definition sanitize_value (v : pyval) : M str :=
  match v with
  | PStr s => ret (sanitize_name s)
  | _ => raise TypeError
  end.

(** [f"{item.delay_ms}ms\t{safe_name}"]. *)
Definition delay_line (item : ProxyDelay) : str :=
  str_of_int (delay_ms item) ++ lit "ms" ++ tab ++ sanitize_name (name item).

(** The loop of lines 221-223. *)
Fixpoint print_lines (delays : list ProxyDelay) : M unit :=
  match delays with
  | [] => ret tt
  | item :: rest => print (Line (delay_line item)) ;;; print_lines rest
  end.

(** The object line 218 builds for one entry. *)
Definition delay_object (item : ProxyDelay) : pyval :=
  PDict [(lit "name", PStr (name item)); (lit "delay_ms", PInt (delay_ms item))].

Definition print_delays_once (config : Config) (json_output : bool) : M unit :=
  delays <- get_group_delays config ;;
  let delays := sort_by_delay delays in
  let delays := firstn 10 delays in
  match delays with
  | [] =>
      if json_output then print (Line (lit "[]"))
      else print (Line (lit "No delay data returned"))
  | _ :: _ =>
      if json_output then print (Json (PList (map delay_object delays)))
      else print_lines delays
  end.

Definition print_current_delay_once (config : Config) (json_output : bool)
  : M unit :=
  current <- get_current_proxy config ;;
  if negb (truthy current) then
    if json_output
    then print (Json (PDict [(lit "error",
                              PStr (lit "current proxy not found"))]))
    else print (Line (lit "Current proxy not found"))
  else
    delays <- get_group_delays config ;;
    let delay_map := delay_map_of delays in
    delay <- delay_map_get delay_map current ;;
    match delay with
    | None =>
        if json_output
        then print (Json (PDict [(lit "name", current);
                                 (lit "delay_ms", PNone)]))
        else
          safe_name <- sanitize_value current ;;
          print (Line (lit "delay unavailable" ++ tab ++ safe_name))
    | Some delay =>
        if json_output
        then print (Json (PDict [(lit "name", current);
                                 (lit "delay_ms", PInt delay)]))
        else
          safe_name <- sanitize_value current ;;
          print (Line (str_of_int delay ++ lit "ms" ++ tab ++ safe_name))
    end.

(** ** Configuration *)

(** The process environment, once [load_dotenv()] has run. *)
Definition environ := list (str * str).

(** [os.getenv(key, default)]. *)
Definition getenv (env : environ) (key default : str) : str :=
  match dict_get env key with
  | Some value => value
  | None => default
  end.

(** [s.rstrip("/")]. *)
Fixpoint lstrip_slash (s : str) : str :=
  match s with
  | [] => []
  | ch :: rest => if (ch =? 47)%N then lstrip_slash rest else s
  end.

Definition rstrip_slash (s : str) : str := rev (lstrip_slash (rev s)).

(** The two ways [load_config] raises [ValueError]: its own check of the
    controller URL, and [int()] on a text that is no integer. *)
Inductive config_error :=
| ControllerUrlRequired
| InvalidInteger (text : str).

Definition load_config (env : environ) : Config + config_error :=
  let controller_url := strip (getenv env (lit "MIHOMO_CONTROLLER_URL") []) in
  let controller_secret :=
    strip (getenv env (lit "MIHOMO_CONTROLLER_SECRET") []) in
  let proxy_group := strip (getenv env (lit "MIHOMO_PROXY_GROUP")
                                   (lit "GLOBAL")) in
  match controller_url with
  | [] => inr ControllerUrlRequired
  | _ :: _ =>
      let test_url := strip (getenv env (lit "TEST_URL")
                                    (lit "https://google.com")) in
      let delay_timeout := getenv env (lit "DELAY_TIMEOUT_MS") (lit "3000") in
      let diff := getenv env (lit "AUTO_SELECT_DIFF_MS") (lit "300") in
      let interval := getenv env (lit "MONITOR_INTERVAL_S") (lit "60") in
      match int_of_str delay_timeout with
      | None => inr (InvalidInteger delay_timeout)
      | Some delay_timeout_ms =>
          match int_of_str diff with
          | None => inr (InvalidInteger diff)
          | Some auto_select_diff_ms =>
              match int_of_str interval with
              | None => inr (InvalidInteger interval)
              | Some monitor_interval_s =>
                  inl {| controller_url := rstrip_slash controller_url;
                         controller_secret := controller_secret;
                         proxy_group := proxy_group;
                         test_url := test_url;
                         delay_timeout_ms := delay_timeout_ms;
                         auto_select_diff_ms := auto_select_diff_ms;
                         monitor_interval_s := monitor_interval_s |}
              end
          end
      end
  end.

End Commands.

(** ** A runtime and payloads for the examples *)

Fixpoint digits_value (acc : Z) (s : str) : option Z :=
  match s with
  | [] => Some acc
  | ch :: rest =>
      if ((48 <=? ch) && (ch <=? 57))%N
      then digits_value (10 * acc + Z.of_N (ch - 48)) rest
      else None
  end.

(** The general category of an ASCII code point. *)
Definition ascii_category (ch : char) : str :=
  if ((ch <? 32) || (ch =? 127))%N then lit "Cc"
  else if (ch =? 32)%N then lit "Zs"
  else if ((48 <=? ch) && (ch <=? 57))%N then lit "Nd"
  else if ((65 <=? ch) && (ch <=? 90))%N then lit "Lu"
  else if ((97 <=? ch) && (ch <=? 122))%N then lit "Ll"
  else if (ch =? 36)%N then lit "Sc"
  else if char_in ch [43; 60; 61; 62; 124; 126]%N then lit "Sm"
  else if char_in ch [94; 96]%N then lit "Sk"
  else if char_in ch [40; 91; 123]%N then lit "Ps"
  else if char_in ch [41; 93; 125]%N then lit "Pe"
  else if (ch =? 45)%N then lit "Pd"
  else if (ch =? 95)%N then lit "Pc"
  else if (ch <? 128)%N then lit "Po"
  else lit "Cn".

(** An instance for plain ASCII text: [int()] on signed decimal literals,
    and the categories of the ASCII code points (the others, which the
    examples do not use, are left unassigned). *)
Definition ascii_runtime : PyRuntime := {|
  int_of_str s :=
    match s with
    | 45%N :: ((_ :: _) as ds) => option_map Z.opp (digits_value 0 ds)
    | 43%N :: ((_ :: _) as ds) => digits_value 0 ds
    | _ :: _ => digits_value 0 s
    | [] => None
    end;
  category := ascii_category
|}.

(** ** Observations on a run *)

(** What was printed, latest first. *)
Fixpoint outputs (evs : list event) : list output :=
  match evs with
  | [] => []
  | Printed o :: rest => o :: outputs rest
  | _ :: rest => outputs rest
  end.

(** The requests sent, latest first. *)
Fixpoint requests (evs : list event) : list request :=
  match evs with
  | [] => []
  | Http req _ :: rest => req :: requests rest
  | _ :: rest => requests rest
  end.

Inductive tag := Switched | Kept.

(** The decision a printed report carries: the ["action"] of a JSON
    report, the first field of a text report. *)
Definition output_tag (o : output) : option tag :=
  match o with
  | Json (PDict d) =>
      match dict_get d (lit "action") with
      | Some action =>
          if str_equals (lit "switched") action then Some Switched
          else if str_equals (lit "kept") action then Some Kept
          else None
      | None => None
      end
  | Json _ => None
  | Line s =>
      if is_prefix (lit "switched" ++ tab) s then Some Switched
      else if is_prefix (lit "kept" ++ tab) s then Some Kept
      else None
  end.

(** The current proxy as the controller reports it: a name or nothing. *)
Definition opt_str (current : option str) : pyval :=
  match current with Some c => PStr c | None => PNone end.

(** The controller accepts the next request. *)
Definition accepts_next (w : world) : Prop :=
  match next_response w with
  | Reply status _ => status < 400
  | Unreachable => False
  end.

(** The controller fails the next request: no answer, or an error status. *)
Definition fails_next (w : world) : Prop :=
  match next_response w with
  | Reply status _ => 400 <= status
  | Unreachable => True
  end.

(** The next answer makes a fetch fail: there is none, its status is an
    error, or its body is not JSON. *)
Definition fetch_fails (w : world) : Prop :=
  match next_response w with
  | Unreachable => True
  | Reply status body => 400 <= status \/ body = None
  end.

(** The next answer reports no active selection: a successful answer whose
    object has no ["now"], or has [null] there. *)
Definition reports_no_selection (w : world) : Prop :=
  match next_response w with
  | Reply status (Some (PDict d)) =>
      status < 400 /\
      (dict_get d (lit "now") = None \/ dict_get d (lit "now") = Some PNone)
  | _ => False
  end.

(** The switch condition as lines 280-296 test it: [current] is a name
    other than the empty [str] (which line 280 takes for no name), it has
    a delay in the snapshot, [best] is another proxy, the delay is above
    the 1000 ms floor and exceeds the best one by more than the configured
    gap. *)
Definition worth_switching (config : Config) (current : option str)
    (snapshot : list ProxyDelay) (best : ProxyDelay) : Prop :=
  exists c d,
    current = Some c /\ c <> [] /\
    In {| name := c; delay_ms := d |} snapshot /\
    name best <> c /\
    1000 < d /\
    auto_select_diff_ms config < d - delay_ms best.

(** The switch condition in the specification's words, which do not have
    the test of line 280: [current] is known, it has a delay in the
    snapshot, [best] is another proxy, the delay is above 1000 ms and
    exceeds the best one by more than the configured gap. *)
Definition claimed_switch_condition (config : Config) (current : option str)
    (snapshot : list ProxyDelay) (best : ProxyDelay) : Prop :=
  exists c d,
    current = Some c /\
    In {| name := c; delay_ms := d |} snapshot /\
    name best <> c /\
    1000 < d /\
    auto_select_diff_ms config < d - delay_ms best.

(** The delay of the last entry named [c]. *)
Fixpoint last_delay (c : str) (l : list ProxyDelay) : option Z :=
  match l with
  | [] => None
  | p :: rest =>
      match last_delay c rest with
      | Some d => Some d
      | None => if str_eq_dec c (name p) then Some (delay_ms p) else None
      end
  end.

Definition by_delay (a b : ProxyDelay) : Prop := delay_ms a <= delay_ms b.

(** ** Shapes of a payload *)

Section Shapes.
Context {rt : PyRuntime}.

(** The snapshot [parse_group_delays] returns is the one read from the
    list under ["proxies"]. *)
Definition reads_proxies_list (payload : dict) : bool :=
  match dict_get payload (lit "delays") with
  | Some (PDict _) => false
  | _ =>
      match collect_items payload with
      | Ok [] =>
          match dict_get payload (lit "proxies") with
          | Some (PList _) => true
          | _ => false
          end
      | _ => false
      end
  end.

End Shapes.

(** The payload and the mapping under ["delays"] are dicts. *)
Definition well_formed (payload : dict) : Prop :=
  unique_keys payload /\
  forall delays,
    dict_get payload (lit "delays") = Some (PDict delays) -> unique_keys delays.

(** ** Payloads, a configuration and worlds for the examples *)

Definition entry (n : string) (delay : Z) : pyval :=
  PDict [(lit "name", PStr (lit n)); (lit "delay", PInt delay)].

(** [{"proxies": [{"name": "x", "delay": 50}, {"name": "y", "delay": -1}]}] *)
Definition proxies_payload : dict :=
  [(lit "proxies", PList [entry "x" 50; entry "y" (-1)])].

(** [{"error": 404}] *)
Definition error_payload : dict := [(lit "error", PInt 404)].

(** [{"delays": 5}] *)
Definition delays_number_payload : dict := [(lit "delays", PInt 5)].

(** [{"error": 404, "x": 1e999}]: the number [1e999] decodes to the float
    infinity. *)
Definition overflow_payload : dict :=
  [(lit "error", PInt 404); (lit "x", PFloat (S754_infinity false))].


(** [{"proxies": [{"name": "x", "delay": 1}, {"name": "x", "delay": 2}]}] *)
Definition repeated_name_payload : dict :=
  [(lit "proxies", PList [entry "x" 1; entry "x" 2])].

(** The payload whose ["delays"] mapping has one key, the empty name, with
    value 5. *)
Definition empty_name_payload : dict :=
  [(lit "delays", PDict [([], PInt 5)])].

(** [{"delays": {"A": 1200, "B": 800}}] *)
Definition delays_payload : dict :=
  [(lit "delays", PDict [(lit "A", PInt 1200); (lit "B", PInt 800)])].

Definition sample_config : Config := {|
  controller_url := lit "http://127.0.0.1:9090";
  controller_secret := [];
  proxy_group := lit "GLOBAL";
  test_url := lit "https://google.com";
  delay_timeout_ms := 3000;
  auto_select_diff_ms := 300;
  monitor_interval_s := 60
|}.

Definition world_of (answers : list response) : world :=
  {| script := answers; stops := []; events := [] |}.

(** The two fetches of a cycle answered with a current proxy and a
    ["delays"] mapping. *)
Definition cycle_world (now : string) (delays : dict) : world :=
  world_of [Reply 200 (Some (PDict [(lit "now", PStr (lit now))]));
            Reply 200 (Some (PDict [(lit "delays", PDict delays)]))].

(** The controller reports "A" as current, then the delays, then accepts
    the switch. *)
Definition switching_world : world :=
  world_of [Reply 200 (Some (PDict [(lit "now", PStr (lit "A"))]));
            Reply 200 (Some (PDict delays_payload));
            Reply 204 None].

(** As [switching_world], but the switch is refused. *)
Definition refusing_world : world :=
  world_of [Reply 200 (Some (PDict [(lit "now", PStr (lit "A"))]));
            Reply 200 (Some (PDict delays_payload));
            Reply 500 None].

(** The controller reports the empty name as current, then a mapping that
    gives 5000 to the empty name and 100 to "B", and would accept a
    switch. *)
Definition empty_current_world : world :=
  world_of [Reply 200 (Some (PDict [(lit "now", PStr [])]));
            Reply 200 (Some (PDict [(lit "delays",
                                     PDict [([], PInt 5000);
                                            (lit "B", PInt 100)])]));
            Reply 204 None].

(** The snapshot of [empty_current_world]. *)
Definition empty_name_snapshot : list ProxyDelay :=
  [{| name := []; delay_ms := 5000 |};
   {| name := lit "B"; delay_ms := 100 |}].

(** The controller reports no current proxy, then the delays. *)
Definition no_current_world : world :=
  world_of [Reply 200 (Some (PDict [(lit "now", PNone)]));
            Reply 200 (Some (PDict delays_payload))].

(** The controller does not answer the first request and answers the
    later ones. *)
Definition flaky_world : world :=
  world_of [Unreachable;
            Reply 200 (Some (PDict [(lit "now", PStr (lit "A"))]));
            Reply 200 (Some (PDict delays_payload));
            Reply 204 None].

(** The snapshot [delays_payload] parses to, and its best entry. *)
Definition sample_snapshot : list ProxyDelay :=
  [{| name := lit "A"; delay_ms := 1200 |};
   {| name := lit "B"; delay_ms := 800 |}].

Definition sample_best : ProxyDelay := {| name := lit "B"; delay_ms := 800 |}.

(** The world after the first, and after the second, fetch of a cycle. *)
Definition after_current (w : world) : world :=
  snd (get_current_proxy sample_config w).

Definition after_delays (w : world) : world :=
  snd (@get_group_delays ascii_runtime sample_config (after_current w)).

(** ** Further observations and examples *)

(** [w'] is [w] after more log records: nothing was sent or printed, no
    answer and no wait was used. *)
Definition only_logged (w w' : world) : Prop :=
  script w' = script w /\ stops w' = stops w /\
  outputs (events w') = outputs (events w) /\
  requests (events w') = requests (events w).

Section Reports.
Context {rt : PyRuntime}.

(** What [print_delays_once] prints for the entries it keeps, first line
    first. *)
Definition delay_reports (json_output : bool) (top : list ProxyDelay)
  : list output :=
  match top with
  | [] => [Line (if json_output then lit "[]"
                 else lit "No delay data returned")]
  | _ :: _ =>
      if json_output then [Json (PList (map delay_object top))]
      else map (fun item => Line (delay_line item)) top
  end.

End Reports.

(** [{"name": "x", "delay": 50}] *)
Definition single_object_payload : dict :=
  [(lit "name", PStr (lit "x")); (lit "delay", PInt 50)].

(** [{"status": "ok"}] *)
Definition unknown_payload : dict := [(lit "status", PStr (lit "ok"))].

(** Three entries, the last two tied for the minimum. *)
Definition tied_snapshot : list ProxyDelay :=
  [{| name := lit "A"; delay_ms := 5 |};
   {| name := lit "B"; delay_ms := 3 |};
   {| name := lit "C"; delay_ms := 3 |}].

(** The controller reports "A" as current and does not answer the delay
    request. *)
Definition no_delays_world : world :=
  world_of [Reply 200 (Some (PDict [(lit "now", PStr (lit "A"))]));
            Unreachable].

(** The controller reports [now] as current, then the delays. *)
Definition odd_current_world (now : pyval) : world :=
  world_of [Reply 200 (Some (PDict [(lit "now", now)]));
            Reply 200 (Some (PDict delays_payload))].

(** The answers of [switching_world], with a signal during the first
    wait. *)
Definition stopping_world : world :=
  {| script := script switching_world; stops := [true]; events := [] |}.

(** Two cycles, the first switching from "A" to "B" and the second
    keeping "B"; the first wait times out and a signal ends the second. *)
Definition two_cycle_world : world :=
  {| script := script switching_world
               ++ [Reply 200 (Some (PDict [(lit "now", PStr (lit "B"))]));
                   Reply 200 (Some (PDict delays_payload))];
     stops := [false; true];
     events := [] |}.

(** An environment with a padded URL that ends with slashes and a padded
    secret. *)
Definition sample_env : list (str * str) :=
  [(lit "MIHOMO_CONTROLLER_URL", lit " http://127.0.0.1:9090// ");
   (lit "MIHOMO_CONTROLLER_SECRET", lit " s3cret ")].

(** An environment whose controller URL is a single slash. *)
Definition slash_env : list (str * str) :=
  [(lit "MIHOMO_CONTROLLER_URL", lit "/")].

(* ================================================================== *)
(** * Properties *)


(** ** Dictionaries *)

Lemma dict_get_In {V} (d : list (str * V)) k v :
  dict_get d k = Some v -> In (k, v) d.
Proof.
  induction d as [|[k' v'] d IH]; simpl; [discriminate|].
  destruct (str_eq_dec k k') as [->|]; intros H.
  - inversion H; subst; now left.
  - right; auto.
Qed.

Lemma dict_get_set {V} (d : list (str * V)) k v c :
  dict_get (dict_set d k v) c =
  if str_eq_dec c k then Some v else dict_get d c.
Proof.
  induction d as [|[k' v'] d IH]; simpl.
  - destruct (str_eq_dec c k); reflexivity.
  - destruct (str_eq_dec k k') as [->|Hk]; simpl.
    + destruct (str_eq_dec c k'); reflexivity.
    + destruct (str_eq_dec c k') as [->|].
      * destruct (str_eq_dec k' k); [congruence|reflexivity].
      * exact IH.
Qed.

Lemma str_eqb_eq a b : str_eqb a b = true <-> a = b.
Proof. unfold str_eqb; destruct (str_eq_dec a b); split; congruence. Qed.

Lemma str_equals_PStr s c : str_equals s (PStr c) = true <-> s = c.
Proof. apply str_eqb_eq. Qed.

(** ** The sort *)

Lemma insert_by_delay_In x l p :
  In p (insert_by_delay x l) <-> p = x \/ In p l.
Proof.
  induction l as [|y l IH]; simpl.
  - intuition.
  - destruct (delay_ms x <=? delay_ms y); simpl; [intuition|].
    rewrite IH; intuition.
Qed.

Lemma sort_by_delay_In l p : In p (sort_by_delay l) <-> In p l.
Proof.
  induction l as [|x l IH]; simpl; [tauto|].
  rewrite insert_by_delay_In, IH; intuition.
Qed.

Lemma insert_by_delay_sorted x l :
  StronglySorted by_delay l -> StronglySorted by_delay (insert_by_delay x l).
Proof.
  induction 1 as [|y l Hs IH Hall]; simpl.
  - constructor; constructor.
  - destruct (delay_ms x <=? delay_ms y) eqn:E.
    + apply Z.leb_le in E. constructor.
      * now constructor.
      * constructor; [exact E|].
        eapply Forall_impl; [|exact Hall].
        unfold by_delay; intros; lia.
    + apply Z.leb_gt in E. constructor; [exact IH|].
      apply Forall_forall; intros p Hp.
      apply insert_by_delay_In in Hp as [->|Hp].
      * unfold by_delay; lia.
      * rewrite Forall_forall in Hall; auto.
Qed.

Lemma sort_by_delay_sorted l : StronglySorted by_delay (sort_by_delay l).
Proof.
  induction l; simpl; [constructor|now apply insert_by_delay_sorted].
Qed.

Lemma sort_by_delay_nonempty l :
  l <> [] -> exists best rest, sort_by_delay l = best :: rest.
Proof.
  destruct l as [|x l]; [congruence|intros _].
  destruct (sort_by_delay (x :: l)) as [|b r] eqn:E; [|eauto].
  exfalso. assert (H : In x (sort_by_delay (x :: l)))
    by (apply sort_by_delay_In; now left).
  now rewrite E in H.
Qed.

(** The head of the sorted snapshot is an entry of minimum delay. *)
Lemma sort_by_delay_head l best rest :
  sort_by_delay l = best :: rest ->
  In best l /\ forall p, In p l -> delay_ms best <= delay_ms p.
Proof.
  intros E. split.
  - apply sort_by_delay_In; rewrite E; now left.
  - intros p Hp. apply sort_by_delay_In in Hp. rewrite E in Hp.
    pose proof (sort_by_delay_sorted l) as Hs. rewrite E in Hs.
    inversion Hs as [|? ? _ Hall]; subst.
    destruct Hp as [->|Hp]; [lia|].
    rewrite Forall_forall in Hall. now apply Hall.
Qed.

(** ** The delay map *)

Lemma delay_map_fold l : forall m c,
  dict_get (fold_left (fun m item => dict_set m (name item) (delay_ms item))
                      l m) c =
  match last_delay c l with Some d => Some d | None => dict_get m c end.
Proof.
  induction l as [|p l IH]; intros m c; simpl; [reflexivity|].
  rewrite IH. destruct (last_delay c l); [reflexivity|].
  rewrite dict_get_set. now destruct (str_eq_dec c (name p)).
Qed.

Lemma delay_map_get_last l c :
  dict_get (delay_map_of l) c = last_delay c l.
Proof.
  unfold delay_map_of. rewrite delay_map_fold.
  now destruct (last_delay c l).
Qed.

Lemma last_delay_In c l d :
  last_delay c l = Some d -> In {| name := c; delay_ms := d |} l.
Proof.
  induction l as [|p l IH]; simpl; [discriminate|].
  destruct (last_delay c l) as [d'|].
  - intros H; inversion H; subst; right; auto.
  - destruct (str_eq_dec c (name p)) as [->|]; [|discriminate].
    intros H; inversion H; subst. left. now destruct p.
Qed.

(** In a sorted list the map keeps, for each name, its largest delay. *)
Lemma last_delay_max c l d' :
  StronglySorted by_delay l ->
  In {| name := c; delay_ms := d' |} l ->
  exists d, last_delay c l = Some d /\ d' <= d.
Proof.
  induction 1 as [|p l Hs IH Hall]; simpl; [tauto|].
  intros [->|Hin].
  - simpl. destruct (last_delay c l) as [d|] eqn:E.
    + exists d; split; [reflexivity|].
      apply last_delay_In in E. rewrite Forall_forall in Hall.
      apply (Hall _ E).
    + destruct (str_eq_dec c c); [|congruence]. exists d'; split; [reflexivity|lia].
  - destruct (IH Hin) as (d & -> & Hd). eauto.
Qed.

(** ** The response parser *)

Section ParserProperties.
Context {rt : PyRuntime}.

(** [int()] raises nothing but [OverflowError] past [_to_int], and only
    on an infinite float. *)
Lemma _to_int_raises value e :
  _to_int value = Raise e ->
  e = OverflowError /\ exists s, value = PFloat (S754_infinity s).
Proof.
  destruct value as [| | |[s|s| |s m x]| | |]; try discriminate.
  intros H; inversion H; subst. split; [reflexivity|now exists s].
Qed.

Lemma keep_entry_In k o delays p :
  In p (keep_entry k o delays) <->
  (exists z, o = Some z /\ 0 <= z /\ p = {| name := k; delay_ms := z |})
  \/ In p delays.
Proof.
  unfold keep_entry. destruct o as [z|].
  - destruct (0 <=? z) eqn:Ez.
    + apply Z.leb_le in Ez. simpl. split.
      * intros [<-|H]; [left; exists z; auto|now right].
      * intros [(z' & Hz & _ & ->)|H]; [left; congruence|now right].
    + apply Z.leb_gt in Ez. split; [now right|].
      intros [(z' & Hz & Hp & _)|H]; [inversion Hz; lia|exact H].
  - split; [now right|]. intros [(z' & Hz & _)|H]; [discriminate|exact H].
Qed.

Lemma collect_items_In items : forall delays k z,
  collect_items items = Ok delays ->
  In {| name := k; delay_ms := z |} delays <->
  exists v, In (k, v) items /\ _to_int v = Ok (Some z) /\ 0 <= z.
Proof.
  induction items as [|[k' v'] items IH]; intros delays k z; simpl.
  - intros H; inversion H; subst. split; [intros []|intros (v & [] & _)].
  - destruct (_to_int v') as [o|e] eqn:Ev; [|discriminate].
    destruct (collect_items items) as [l|e]; [|discriminate].
    intros H; inversion H; subst. rewrite keep_entry_In, (IH l k z eq_refl).
    split.
    + intros [(z' & -> & Hz & Hp)|(v & Hv & Hz)].
      * inversion Hp; subst. exists v'. auto.
      * exists v. auto.
    + intros (v & [Hkv|Hv] & Hz & Hp).
      * inversion Hkv; subst. left. exists z.
        rewrite Ev in Hz. inversion Hz; subst. auto.
      * right. exists v. auto.
Qed.

Lemma keep_entry_nonneg k o delays :
  Forall (fun p => 0 <= delay_ms p) delays ->
  Forall (fun p => 0 <= delay_ms p) (keep_entry k o delays).
Proof.
  intros H. unfold keep_entry. destruct o as [z|]; [|exact H].
  destruct (0 <=? z) eqn:Ez; [|exact H].
  constructor; [apply Z.leb_le in Ez; exact Ez|exact H].
Qed.

Lemma collect_items_nonneg items : forall delays,
  collect_items items = Ok delays ->
  Forall (fun p => 0 <= delay_ms p) delays.
Proof.
  induction items as [|[k v] items IH]; intros delays; simpl.
  - intros H; inversion H; constructor.
  - destruct (_to_int v) as [o|e]; [|discriminate].
    destruct (collect_items items) as [l|e]; [|discriminate].
    intros H; inversion H; subst. apply keep_entry_nonneg. now apply IH.
Qed.

Lemma collect_proxies_nonneg items : forall delays,
  collect_proxies items = Ok delays ->
  Forall (fun p => 0 <= delay_ms p) delays.
Proof.
  induction items as [|item items IH]; intros delays; simpl.
  - intros H; inversion H; constructor.
  - destruct item as [| | | | | |d]; try apply IH.
    destruct (dict_get d (lit "name")) as [[| | | |s| |]|]; try apply IH.
    destruct (_to_int _) as [o|e]; [|discriminate].
    destruct (collect_proxies items) as [l|e]; [|discriminate].
    intros H; inversion H; subst. apply keep_entry_nonneg. now apply IH.
Qed.

Lemma single_entry_nonneg payload p :
  single_entry payload = Ok (Some p) -> 0 <= delay_ms p.
Proof.
  unfold single_entry.
  destruct (dict_in payload (lit "name") && dict_in payload (lit "delay"));
    [|discriminate].
  destruct (dict_get payload (lit "name")) as [[| | | |s| |]|];
    try discriminate.
  destruct (dict_get payload (lit "delay")) as [v|]; [|discriminate].
  destruct (_to_int v) as [[z|]|e]; try discriminate.
  destruct (0 <=? z) eqn:Ez; [|discriminate].
  intros H; inversion H; subst. simpl. now apply Z.leb_le.
Qed.

Lemma keep_entry_names k o delays n :
  In n (map name (keep_entry k o delays)) ->
  n = k \/ In n (map name delays).
Proof.
  unfold keep_entry. destruct o as [z|]; [|now right].
  destruct (0 <=? z); [|now right].
  simpl. intros [H|H]; auto.
Qed.

Lemma collect_items_names items : forall delays n,
  collect_items items = Ok delays ->
  In n (map name delays) -> In n (map fst items).
Proof.
  induction items as [|[k v] items IH]; intros delays n; simpl.
  - intros H; inversion H; subst. tauto.
  - destruct (_to_int v) as [o|e]; [|discriminate].
    destruct (collect_items items) as [l|e] eqn:El; [|discriminate].
    intros H; inversion H; subst. intros Hn.
    apply keep_entry_names in Hn as [->|Hn]; [now left|].
    right. now apply (IH l).
Qed.

Lemma collect_items_NoDup items : forall delays,
  unique_keys items ->
  collect_items items = Ok delays ->
  NoDup (map name delays).
Proof.
  unfold unique_keys.
  induction items as [|[k v] items IH]; intros delays; simpl.
  - intros _ H; inversion H; constructor.
  - intros Hu. inversion Hu as [|? ? Hk Hrest]; subst.
    destruct (_to_int v) as [o|e]; [|discriminate].
    destruct (collect_items items) as [l|e] eqn:El; [|discriminate].
    intros H; inversion H; subst.
    unfold keep_entry. destruct o as [z|]; [|now apply IH].
    destruct (0 <=? z); [|now apply IH].
    simpl. constructor; [|now apply IH].
    intros Hin. apply Hk. now apply (collect_items_names items l).
Qed.

(** The loop over a mapping completes unless a value is an infinite
    float. *)
Lemma collect_items_completes items :
  (forall k v, In (k, v) items -> _to_int v <> Raise OverflowError) ->
  exists delays, collect_items items = Ok delays.
Proof.
  induction items as [|[k v] items IH]; simpl; [eauto|].
  intros H.
  destruct (_to_int v) as [o|e] eqn:Ev.
  - destruct IH as [l ->]; [intros k' v' Hin; apply (H k' v'); now right|].
    eauto.
  - exfalso. destruct (_to_int_raises _ _ Ev) as [-> _].
    apply (H k v); [now left|exact Ev].
Qed.

Lemma collect_items_raises items e :
  collect_items items = Raise e ->
  e = OverflowError /\
  exists k v, In (k, v) items /\ _to_int v = Raise OverflowError.
Proof.
  induction items as [|[k v] items IH]; simpl; [discriminate|].
  destruct (_to_int v) as [o|e'] eqn:Ev.
  - destruct (collect_items items) as [l|e'']; [discriminate|].
    intros H; inversion H; subst.
    destruct (IH eq_refl) as (-> & k' & v' & Hin & Hv).
    split; [reflexivity|]. exists k', v'. auto.
  - intros H; inversion H; subst.
    destruct (_to_int_raises _ _ Ev) as [-> _].
    split; [reflexivity|]. exists k, v. auto.
Qed.


Lemma collect_items_values items : forall delays k v,
  collect_items items = Ok delays ->
  In (k, v) items -> exists o, _to_int v = Ok o.
Proof.
  induction items as [|[k' v'] items IH]; intros delays k v; simpl.
  - intros _ [].
  - destruct (_to_int v') as [o|e] eqn:Ev; [|discriminate].
    destruct (collect_items items) as [l|e]; [|discriminate].
    intros _ [H|H].
    + inversion H; subst. eauto.
    + now apply (IH l k v).
Qed.

Lemma single_entry_is_top_level payload p delays :
  single_entry payload = Ok (Some p) ->
  collect_items payload = Ok delays ->
  In {| name := lit "delay"; delay_ms := delay_ms p |} delays.
Proof.
  unfold single_entry.
  destruct (dict_in payload (lit "name") && dict_in payload (lit "delay"));
    [|discriminate].
  destruct (dict_get payload (lit "name")) as [[| | | |s| |]|];
    try discriminate.
  destruct (dict_get payload (lit "delay")) as [v|] eqn:Ed; [|discriminate].
  destruct (_to_int v) as [[z|]|e] eqn:Ev; try discriminate.
  destruct (0 <=? z) eqn:Ez; [|discriminate].
  intros H Hc; inversion H; subst. simpl.
  apply (collect_items_In payload delays _ z Hc). exists v.
  split; [now apply dict_get_In|]. split; [exact Ev|now apply Z.leb_le].
Qed.

(** A ["delay"] value on which [_to_int] raises stops the top-level loop
    first. *)
Lemma single_entry_raises payload e delays :
  single_entry payload = Raise e ->
  collect_items payload = Ok delays -> False.
Proof.
  unfold single_entry.
  destruct (dict_in payload (lit "name") && dict_in payload (lit "delay"));
    [|discriminate].
  destruct (dict_get payload (lit "name")) as [[| | | |s| |]|];
    try discriminate.
  destruct (dict_get payload (lit "delay")) as [v|] eqn:Ed; [|discriminate].
  destruct (_to_int v) as [[z|]|e'] eqn:Ev; try discriminate;
    [destruct (0 <=? z); discriminate|].
  intros _ Hc. apply dict_get_In in Ed.
  destruct (collect_items_values payload delays _ _ Hc Ed) as [o Ho].
  congruence.
Qed.

(** Past the ["delays"] shape the single-object reading never applies:
    what it would accept, the loop over the top-level object has kept
    already. *)
Lemma single_entry_unreachable payload :
  collect_items payload = Ok [] -> single_entry payload = Ok None.
Proof.
  intros Hc. destruct (single_entry payload) as [[p|]|e] eqn:Es.
  - destruct (single_entry_is_top_level payload p [] Es Hc).
  - reflexivity.
  - destruct (single_entry_raises payload e [] Es Hc).
Qed.

Lemma parse_after_delays_eq payload :
  parse_after_delays payload =
  match collect_items payload with
  | Raise e => Raise e
  | Ok (d :: delays) => Ok (d :: delays, [])
  | Ok [] =>
      match dict_get payload (lit "proxies") with
      | Some (PList items) =>
          match collect_proxies items with
          | Raise e => Raise e
          | Ok delays => Ok (delays, [])
          end
      | _ => Ok ([], [WarnUnexpectedShape payload])
      end
  end.
Proof.
  unfold parse_after_delays.
  destruct (collect_items payload) as [[|d delays]|e] eqn:Ec; try reflexivity.
  rewrite (single_entry_unreachable payload Ec). reflexivity.
Qed.

Lemma parse_after_delays_nonneg payload snapshot logs :
  parse_after_delays payload = Ok (snapshot, logs) ->
  Forall (fun p => 0 <= delay_ms p) snapshot.
Proof.
  rewrite parse_after_delays_eq.
  destruct (collect_items payload) as [[|d delays]|e] eqn:Ec;
    [| |discriminate].
  - destruct (dict_get payload (lit "proxies")) as [[| | | | |items|]|];
      try (intros H; inversion H; subst; constructor).
    destruct (collect_proxies items) as [l|e] eqn:El; [|discriminate].
    intros H; inversion H; subst. now apply (collect_proxies_nonneg items).
  - intros H; inversion H; subst. now apply (collect_items_nonneg payload).
Qed.

Lemma parse_after_delays_NoDup payload snapshot logs :
  unique_keys payload ->
  match collect_items payload with
  | Ok [] =>
      match dict_get payload (lit "proxies") with
      | Some (PList _) => true
      | _ => false
      end
  | _ => false
  end = false ->
  parse_after_delays payload = Ok (snapshot, logs) ->
  NoDup (map name snapshot).
Proof.
  intros Hu. rewrite parse_after_delays_eq.
  destruct (collect_items payload) as [[|d delays]|e] eqn:Ec;
    [| |discriminate].
  - destruct (dict_get payload (lit "proxies")) as [[| | | | |items|]|];
      try discriminate; intros _ H; inversion H; subst; constructor.
  - intros _ H; inversion H; subst.
    now apply (collect_items_NoDup payload).
Qed.

(** The parser returns, or raises the [OverflowError] of an infinite
    float. *)
Lemma parse_group_delays_raises payload e :
  parse_group_delays payload = Raise e -> e = OverflowError.
Proof.
  unfold parse_group_delays.
  assert (Ha : parse_after_delays payload = Raise e -> e = OverflowError).
  { rewrite parse_after_delays_eq.
    destruct (collect_items payload) as [[|d delays]|e'] eqn:Ec;
      [|discriminate|].
    - destruct (dict_get payload (lit "proxies")) as [[| | | | |items|]|];
        try discriminate.
      destruct (collect_proxies items) as [l|e'] eqn:El; [discriminate|].
      intros H; inversion H; subst. clear - El.
      revert El. induction items as [|item items IH]; simpl; [discriminate|].
      destruct item as [| | | | | |d]; try exact IH.
      destruct (dict_get d (lit "name")) as [[| | | |s| |]|]; try exact IH.
      destruct (_to_int _) as [o|e'] eqn:Ev.
      + destruct (collect_proxies items) as [l|e']; [discriminate|].
        intros H; inversion H; subst. now apply IH.
      + intros H; inversion H; subst.
        now destruct (_to_int_raises _ _ Ev).
    - intros H; inversion H; subst.
      now destruct (collect_items_raises _ _ Ec). }
  destruct (dict_get payload (lit "delays")) as [[| | | | | |d]|];
    try exact Ha.
  destruct (collect_items d) as [l|e'] eqn:Ec; [discriminate|].
  intros H; inversion H; subst. now destruct (collect_items_raises _ _ Ec).
Qed.


(** C3, as amended.  Every entry of a snapshot the parser returns has a
    non-negative delay.  Names are not checked: they may be empty, and
    they are pairwise distinct only when the snapshot is read from a
    mapping (of a well-formed payload), not when it is read from the list
    under ["proxies"]. *)
Theorem snapshot_delays_nonneg payload snapshot logs :
  parse_group_delays payload = Ok (snapshot, logs) ->
  Forall (fun p => 0 <= delay_ms p) snapshot /\
  (well_formed payload -> reads_proxies_list payload = false ->
   NoDup (map name snapshot)).
Proof.
  unfold parse_group_delays, reads_proxies_list, well_formed.
  intros H. split.
  - destruct (dict_get payload (lit "delays")) as [[| | | | | |d]|];
      try (now apply (parse_after_delays_nonneg payload snapshot logs)).
    destruct (collect_items d) as [l|e] eqn:Ec; [|discriminate].
    inversion H; subst. now apply (collect_items_nonneg d).
  - intros [Hu Hd].
    destruct (dict_get payload (lit "delays")) as [[| | | | | |d]|];
      try (intros Hr;
           now apply (parse_after_delays_NoDup payload snapshot logs)).
    intros _. destruct (collect_items d) as [l|e] eqn:Ec; [|discriminate].
    inversion H; subst. apply (collect_items_NoDup d); [now apply Hd|exact Ec].
Qed.

(** C7.  The payload
    [{"proxies": [{"name": "x", "delay": 50}, {"name": "y", "delay": -1}]}]
    parses to the single entry (x, 50).  The top-level-map reading keeps
    nothing, the value under ["proxies"] being no integer, and in the
    list the entry for y is dropped for its negative delay. *)
Theorem proxies_payload_parses :
  parse_group_delays proxies_payload
  = Ok ([{| name := lit "x"; delay_ms := 50 |}], []) /\
  collect_items proxies_payload = Ok [] /\
  _to_int (PList [entry "x" 50; entry "y" (-1)]) = Ok None /\
  collect_proxies [entry "y" (-1)] = Ok [].
Proof. repeat split. Qed.

(** C10.  When ["delays"] is absent or no mapping and ["proxies"] is
    absent or no list, and no top-level value is an infinite float, every
    top-level key whose value parses as a non-negative integer is an entry
    of the snapshot under that key, structural keys included:
    [{"error": 404}] parses to (error, 404) and [{"delays": 5}] to
    (delays, 5).  An infinite float among the values makes the parser
    raise instead, [_to_int] not catching the [OverflowError] of [int()]:
    [{"error": 404, "x": 1e999}] has no snapshot at all. *)
Theorem top_level_keys_become_entries :
  (forall payload k v z,
      (forall d, dict_get payload (lit "delays") <> Some (PDict d)) ->
      (forall l, dict_get payload (lit "proxies") <> Some (PList l)) ->
      (forall k' v', In (k', v') payload ->
                     _to_int v' <> Raise OverflowError) ->
      dict_get payload k = Some v ->
      _to_int v = Ok (Some z) ->
      0 <= z ->
      exists snapshot,
        parse_group_delays payload = Ok (snapshot, []) /\
        collect_items payload = Ok snapshot /\
        In {| name := k; delay_ms := z |} snapshot) /\
  parse_group_delays error_payload
  = Ok ([{| name := lit "error"; delay_ms := 404 |}], []) /\
  parse_group_delays delays_number_payload
  = Ok ([{| name := lit "delays"; delay_ms := 5 |}], []) /\
  ((forall d, dict_get overflow_payload (lit "delays") <> Some (PDict d)) /\
   (forall l, dict_get overflow_payload (lit "proxies") <> Some (PList l)) /\
   dict_get overflow_payload (lit "error") = Some (PInt 404) /\
   _to_int (PInt 404) = Ok (Some 404) /\
   parse_group_delays overflow_payload = Raise OverflowError).
Proof.
  split; [|split; [reflexivity|split; [reflexivity|]]].
  - intros payload k v z Hd _ Hfin Hk Hv Hz.
    destruct (collect_items_completes payload Hfin) as [l Hl].
    assert (Hin : In {| name := k; delay_ms := z |} l).
    { apply (collect_items_In payload l k z Hl). exists v.
      split; [now apply dict_get_In|auto]. }
    exists l. split; [|split; [exact Hl|exact Hin]].
    unfold parse_group_delays, parse_after_delays. rewrite Hl.
    destruct l as [|p ps]; [destruct Hin|].
    destruct (dict_get payload (lit "delays")) as [[| | | | | |d]|] eqn:Ed;
      try reflexivity.
    now destruct (Hd d).
  - repeat split; try reflexivity; intros ? H; discriminate H.
Qed.

End ParserProperties.

(** ** The name sanitizer *)

(** A [str] that does not start with whitespace. *)
Lemma lstrip_fixed s :
  match s with [] => True | ch :: _ => isspace ch = false end ->
  lstrip s = s.
Proof. destruct s as [|ch s]; simpl; [reflexivity|]. now intros ->. Qed.

Lemma lstrip_head s :
  match lstrip s with [] => True | ch :: _ => isspace ch = false end.
Proof.
  induction s as [|ch s IH]; simpl; [exact I|].
  destruct (isspace ch) eqn:E; [exact IH|exact E].
Qed.

Lemma lstrip_idempotent s : lstrip (lstrip s) = lstrip s.
Proof. apply lstrip_fixed, lstrip_head. Qed.

Lemma lstrip_suffix s : exists p, s = p ++ lstrip s.
Proof.
  induction s as [|ch s [p Hp]]; simpl; [now exists []|].
  destruct (isspace ch).
  - exists (ch :: p). simpl. congruence.
  - now exists [].
Qed.

(** Stripping on the left stops at the latest at a final non-space. *)
Lemma lstrip_keeps_last s ch :
  isspace ch = false -> exists t, lstrip (s ++ [ch]) = t ++ [ch].
Proof.
  intros Hch. induction s as [|a s IH]; simpl.
  - rewrite Hch. now exists [].
  - destruct (isspace a); [exact IH|]. now exists (a :: s).
Qed.

Lemma rstrip_head s :
  match s with [] => True | ch :: _ => isspace ch = false end ->
  match rstrip s with [] => True | ch :: _ => isspace ch = false end.
Proof.
  unfold rstrip. destruct s as [|ch s]; simpl; [tauto|].
  intros Hch. destruct (lstrip_keeps_last (rev s) ch Hch) as [t ->].
  rewrite rev_app_distr. simpl. exact Hch.
Qed.

Lemma rstrip_idempotent s : rstrip (rstrip s) = rstrip s.
Proof.
  unfold rstrip. rewrite rev_involutive. now rewrite lstrip_idempotent.
Qed.

Lemma strip_idempotent s : strip (strip s) = strip s.
Proof.
  unfold strip.
  rewrite (lstrip_fixed (rstrip (lstrip s))).
  - apply rstrip_idempotent.
  - apply rstrip_head, lstrip_head.
Qed.

Lemma lstrip_Forall (P : char -> Prop) s : Forall P s -> Forall P (lstrip s).
Proof.
  intros H. destruct (lstrip_suffix s) as [p Hp].
  rewrite Hp in H. now apply Forall_app in H.
Qed.

Lemma strip_Forall (P : char -> Prop) s : Forall P s -> Forall P (strip s).
Proof.
  intros H. unfold strip, rstrip.
  apply Forall_rev, lstrip_Forall, Forall_rev, lstrip_Forall, H.
Qed.

Section SanitizerProperties.
Context {rt : PyRuntime}.

Lemma cleaned_keeps s : Forall (fun ch => keeps ch = true) (cleaned s).
Proof.
  induction s as [|ch s IH]; simpl; [constructor|].
  destruct (keeps ch) eqn:E; [constructor|]; assumption.
Qed.

Lemma cleaned_fixed s : Forall (fun ch => keeps ch = true) s -> cleaned s = s.
Proof.
  induction 1 as [|ch s Hch _ IH]; simpl; [reflexivity|].
  rewrite Hch. now f_equal.
Qed.

(** C9.  Sanitization is idempotent.  Every character of a sanitized
    name is one the filter keeps (safe punctuation, or a category that
    starts with L, N or M), so a second pass removes nothing, and a
    second trim changes nothing. *)
Theorem sanitize_name_idempotent s :
  sanitize_name (sanitize_name s) = sanitize_name s /\
  Forall (fun ch => keeps ch = true) (sanitize_name s) /\
  cleaned (sanitize_name s) = sanitize_name s /\
  strip (sanitize_name s) = sanitize_name s.
Proof.
  assert (Hk : Forall (fun ch => keeps ch = true) (sanitize_name s))
    by apply strip_Forall, cleaned_keeps.
  assert (Hc : cleaned (sanitize_name s) = sanitize_name s)
    by now apply cleaned_fixed.
  assert (Hs : strip (sanitize_name s) = sanitize_name s)
    by apply strip_idempotent.
  repeat split; try assumption.
  unfold sanitize_name at 1. now rewrite Hc.
Qed.

End SanitizerProperties.

(** ** The selection engine *)

Section Engine.
Context {rt : PyRuntime}.

Lemma kept_result_action current cd best :
  match dict_get (kept_result current cd best) (lit "action") with
  | Some action => str_equals (lit "switched") action
  | None => false
  end = false.
Proof. reflexivity. Qed.

Lemma switched_result_action current cd best reason :
  match dict_get (switched_result current cd best reason) (lit "action") with
  | Some action => str_equals (lit "switched") action
  | None => false
  end = true.
Proof. reflexivity. Qed.

Lemma truthy_name c : c <> [] -> truthy (PStr c) = true.
Proof. destruct c; [congruence|reflexivity]. Qed.

(** The test of line 303 when the current proxy is a name with a delay. *)
Lemma switch_decision_true config c d best :
  (let (should_switch, _) := switch_decision config (PStr c) (Some d) best in
   should_switch && negb (str_equals (name best) (PStr c))) = true <->
  name best <> c /\ 1000 < d /\
  auto_select_diff_ms config < d - delay_ms best.
Proof.
  unfold switch_decision.
  destruct (str_equals (name best) (PStr c)) eqn:En; simpl.
  - apply str_equals_PStr in En. split; [|tauto].
    destruct (d <=? 1000); discriminate.
  - assert (name best <> c)
      by (intros Hc; apply str_equals_PStr in Hc; congruence).
    destruct (1000 <? d) eqn:E1; simpl.
    + destruct (auto_select_diff_ms config <? d - delay_ms best) eqn:E2;
        simpl.
      * apply Z.ltb_lt in E1, E2. tauto.
      * apply Z.ltb_ge in E2.
        split; [destruct (d <=? 1000); discriminate|lia].
    + apply Z.ltb_ge in E1.
      split; [destruct (d <=? 1000); discriminate|lia].
Qed.

(** The switch condition, read on the sorted snapshot as the code does:
    the delay of [current] is the one the delay map holds. *)
Lemma worth_switching_last config c snapshot best rest :
  sort_by_delay snapshot = best :: rest ->
  worth_switching config (Some c) snapshot best <->
  c <> [] /\
  exists d, last_delay c (best :: rest) = Some d /\
            name best <> c /\ 1000 < d /\
            auto_select_diff_ms config < d - delay_ms best.
Proof.
  intros E.
  pose proof (sort_by_delay_sorted snapshot) as Hs. rewrite E in Hs.
  split.
  - intros (c' & d & Hc & Hne & Hin & Hn & H1 & H2).
    inversion Hc; subst c'. split; [exact Hne|].
    apply sort_by_delay_In in Hin. rewrite E in Hin.
    destruct (last_delay_max _ _ _ Hs Hin) as (d1 & Hd1 & Hle).
    exists d1. repeat split; [exact Hd1|exact Hn|lia|lia].
  - intros (Hne & d & Hd & Hn & H1 & H2).
    exists c, d. repeat split; try assumption.
    apply sort_by_delay_In. rewrite E. now apply last_delay_In.
Qed.

(** The delay looked up for a current proxy that is a name or nothing. *)
Lemma current_delay_run current l w :
  (if truthy (opt_str current)
   then delay_map_get (delay_map_of l) (opt_str current)
   else ret None) w =
  (Ok (match current with
       | Some c => if str_eq_dec c [] then None else last_delay c l
       | None => None
       end), w).
Proof.
  destruct current as [c|]; [|reflexivity].
  destruct (str_eq_dec c []) as [->|Hc]; [reflexivity|].
  cbn [opt_str]. rewrite (truthy_name _ Hc). cbn [delay_map_get]. unfold ret.
  now rewrite delay_map_get_last.
Qed.

Lemma sanitize_current_run current w :
  sanitize_current (opt_str current) w =
  (Ok (sanitize_name (match current with Some c => c | None => [] end)), w).
Proof. destruct current as [[|a c]|]; reflexivity. Qed.

Ltac run_fetches Hcur Hdel E :=
  unfold auto_select_once, bind at 1; rewrite Hcur;
  unfold bind at 1; rewrite Hdel; rewrite E;
  unfold bind at 1; rewrite current_delay_run.

(** A cycle in which the switch condition fails prints a kept report and
    sends nothing more. *)
Lemma auto_select_once_keep config json_output w w1 w2 current snapshot
    best rest :
  get_current_proxy config w = (Ok (opt_str current), w1) ->
  get_group_delays config w1 = (Ok snapshot, w2) ->
  sort_by_delay snapshot = best :: rest ->
  ~ worth_switching config current snapshot best ->
  exists o,
    auto_select_once config json_output w = (Ok tt, record (Printed o) w2) /\
    output_tag o = Some Kept.
Proof.
  intros Hcur Hdel E Hnw. run_fetches Hcur Hdel E.
  set (cd := match current with
             | Some c => if str_eq_dec c [] then None else last_delay c (best :: rest)
             | None => None
             end).
  assert (Htest :
    (let (should_switch, _) :=
       switch_decision config (opt_str current) cd best in
     should_switch && negb (str_equals (name best) (opt_str current)))
    = false).
  { subst cd. destruct current as [c|]; [|reflexivity].
    destruct (str_eq_dec c []) as [->|Hc]; [reflexivity|].
    destruct (last_delay c (best :: rest)) as [d|] eqn:El; [|reflexivity].
    apply not_true_is_false. intros Ht.
    apply switch_decision_true in Ht. apply Hnw.
    apply (worth_switching_last _ _ _ _ _ E). split; [exact Hc|].
    exists d. tauto. }
  destruct (switch_decision config (opt_str current) cd best)
    as [should_switch reason].
  rewrite Htest. unfold bind at 1, ret at 1.
  destruct json_output.
  - eexists; split; reflexivity.
  - rewrite kept_result_action. unfold bind at 1.
    rewrite sanitize_current_run. eexists; split; reflexivity.
Qed.

(** A cycle in which the switch condition holds sends the mutation, and
    prints a switched report once it has succeeded. *)
Lemma auto_select_once_switch config json_output w w1 w2 current snapshot
    best rest :
  get_current_proxy config w = (Ok (opt_str current), w1) ->
  get_group_delays config w1 = (Ok snapshot, w2) ->
  sort_by_delay snapshot = best :: rest ->
  worth_switching config current snapshot best ->
  exists o,
    output_tag o = Some Switched /\
    auto_select_once config json_output w =
    match next_response w2 with
    | Reply status _ =>
        if status <? 400
        then (Ok tt, record (Printed o) (sent (switch_request config best) w2))
        else (Raise (ClientResponseError status),
              sent (switch_request config best) w2)
    | Unreachable =>
        (Raise ClientError, sent (switch_request config best) w2)
    end.
Proof.
  intros Hcur Hdel E Hw. run_fetches Hcur Hdel E.
  destruct current as [c|]; [|destruct Hw as (c & d & Hc & _); discriminate].
  apply (worth_switching_last _ _ _ _ _ E) in Hw.
  destruct Hw as (Hc & d & Hd & Hcond).
  apply switch_decision_true in Hcond.
  destruct (str_eq_dec c []) as [|_]; [contradiction|]. rewrite Hd.
  cbn [opt_str].
  destruct (switch_decision config (PStr c) (Some d) best)
    as [should_switch reason].
  rewrite Hcond.
  unfold bind at 1, bind at 1, switch_proxy, bind at 1, send.
  exists (if json_output
          then Json (PDict (switched_result (PStr c) (Some d) best reason))
          else Line (lit "switched" ++ tab ++ sanitize_name c ++ tab
                     ++ fmt_delay (Some d) ++ lit " -> "
                     ++ str_of_int (delay_ms best) ++ lit "ms" ++ tab
                     ++ sanitize_name (name best))).
  split; [destruct json_output; reflexivity|].
  destruct (next_response w2) as [|status body]; [reflexivity|].
  unfold raise_for_status. cbn [fst].
  destruct (status <? 400); [|reflexivity].
  unfold ret at 1, ret at 1.
  destruct json_output; [reflexivity|].
  rewrite switched_result_action. unfold bind at 1.
  rewrite (sanitize_current_run (Some c)). reflexivity.
Qed.

Lemma accepts_or_fails w : accepts_next w \/ fails_next w.
Proof.
  unfold accepts_next, fails_next.
  destruct (next_response w); [now right|lia].
Qed.

Lemma worth_switching_dec config current snapshot best rest :
  sort_by_delay snapshot = best :: rest ->
  worth_switching config current snapshot best \/
  ~ worth_switching config current snapshot best.
Proof.
  intros E. destruct current as [c|].
  2:{ right. intros (c & d & Hc & _). discriminate. }
  rewrite (worth_switching_last _ _ _ _ _ E).
  destruct (str_eq_dec c []) as [->|Hc]; [right; tauto|].
  destruct (last_delay c (best :: rest)) as [d|].
  2:{ right. intros (_ & d & Hd & _). discriminate. }
  destruct (str_eq_dec (name best) c) as [Hn|Hn].
  { right. intros (_ & d' & _ & Hn' & _). contradiction. }
  destruct (Z_lt_dec 1000 d) as [H1|H1].
  2:{ right. intros (_ & d' & Hd & _ & H1' & _). inversion Hd; subst. lia. }
  destruct (Z_lt_dec (auto_select_diff_ms config) (d - delay_ms best))
    as [H2|H2].
  2:{ right. intros (_ & d' & Hd & _ & _ & H2'). inversion Hd; subst. lia. }
  left. split; [exact Hc|]. exists d. tauto.
Qed.

Lemma cons_neq {A} (x : A) l : l <> x :: l.
Proof.
  intros H. apply (f_equal (@List.length A)) in H. simpl in H. lia.
Qed.

(** C1, as amended.  With the current proxy (a name or nothing) and a
    non-empty snapshot fetched, the cycle decides about the minimum-delay
    entry [best].  The switch request for [best] is sent if and only if
    the current proxy is a known name that is not the empty string, the
    snapshot has a delay for it, [best] is another proxy, that delay is
    above 1000 ms and exceeds the best delay by more than
    [auto_select_diff_ms].  A Switched decision is reported if and only
    if this holds and the controller accepts the request, and is then
    printed after the request.  In every other case the decision is Kept
    and printed with no request sent, whatever the delay of [best] and
    whatever the controller would answer. *)
Theorem auto_select_switches_iff config json_output w w1 w2 current
    snapshot :
  get_current_proxy config w = (Ok (opt_str current), w1) ->
  get_group_delays config w1 = (Ok snapshot, w2) ->
  snapshot <> [] ->
  exists best,
    hd_error (sort_by_delay snapshot) = Some best /\
    In best snapshot /\
    (forall p, In p snapshot -> delay_ms best <= delay_ms p) /\
    (requests (events (snd (auto_select_once config json_output w)))
     = switch_request config best :: requests (events w2) <->
     worth_switching config current snapshot best) /\
    ((exists o,
         outputs (events (snd (auto_select_once config json_output w)))
         = o :: outputs (events w2) /\
         output_tag o = Some Switched) <->
     worth_switching config current snapshot best /\ accepts_next w2) /\
    (worth_switching config current snapshot best -> accepts_next w2 ->
     exists o,
       output_tag o = Some Switched /\
       auto_select_once config json_output w
       = (Ok tt, record (Printed o) (sent (switch_request config best) w2))) /\
    (~ worth_switching config current snapshot best ->
     exists o,
       output_tag o = Some Kept /\
       auto_select_once config json_output w
       = (Ok tt, record (Printed o) w2)).
Proof.
  intros Hcur Hdel Hne.
  destruct (sort_by_delay_nonempty snapshot Hne) as (best & rest & E).
  destruct (sort_by_delay_head _ _ _ E) as [Hin Hmin].
  exists best. rewrite E.
  split; [reflexivity|]. split; [exact Hin|]. split; [exact Hmin|].
  destruct (worth_switching_dec config current snapshot best rest E)
    as [Hw|Hnw].
  - destruct (auto_select_once_switch config json_output _ _ _ _ _ _ _
                Hcur Hdel E Hw) as (o & Ho & Hrun).
    rewrite Hrun. split; [|split; [|split]].
    + split; [intros _; exact Hw|intros _].
      destruct (next_response w2) as [|status body]; [reflexivity|].
      destruct (status <? 400); reflexivity.
    + unfold accepts_next. split.
      * intros (o' & Hout & _). split; [exact Hw|].
        destruct (next_response w2) as [|status body].
        -- simpl in Hout. now apply cons_neq in Hout.
        -- destruct (status <? 400) eqn:Es; [now apply Z.ltb_lt|].
           simpl in Hout. now apply cons_neq in Hout.
      * intros [_ Hacc].
        destruct (next_response w2) as [|status body]; [contradiction|].
        apply Z.ltb_lt in Hacc. rewrite Hacc.
        exists o. split; [reflexivity|exact Ho].
    + unfold accepts_next. intros _ Hacc.
      destruct (next_response w2) as [|status body]; [contradiction|].
      apply Z.ltb_lt in Hacc. rewrite Hacc.
      exists o. split; [exact Ho|reflexivity].
    + intros Hn. contradiction.
  - destruct (auto_select_once_keep config json_output _ _ _ _ _ _ _
                Hcur Hdel E Hnw) as (o & Hrun & Ho).
    rewrite Hrun. split; [|split; [|split]].
    + split; [|intros Hw; contradiction].
      simpl. intros H. now apply cons_neq in H.
    + split; [|intros [Hw _]; contradiction].
      intros (o' & Hout & Ht). simpl in Hout.
      inversion Hout; subst o'. rewrite Ho in Ht. discriminate.
    + intros Hw. contradiction.
    + intros _. exists o. split; [exact Ho|reflexivity].
Qed.

(** C5.  When the switch condition holds the cycle first sends the
    mutation selecting [best]; the Switched report is printed after it,
    and only if it succeeded.  If it fails, the error leaves
    [auto_select_once] and nothing is printed. *)
Theorem switch_failure_propagates config json_output w w1 w2 current
    snapshot best :
  get_current_proxy config w = (Ok (opt_str current), w1) ->
  get_group_delays config w1 = (Ok snapshot, w2) ->
  hd_error (sort_by_delay snapshot) = Some best ->
  worth_switching config current snapshot best ->
  let w3 := sent (switch_request config best) w2 in
  method (switch_request config best) = PUT /\
  json (switch_request config best)
  = Some (PDict [(lit "name", PStr (name best))]) /\
  events w3
  = Http (switch_request config best) (next_response w2) :: events w2 /\
  (accepts_next w2 ->
   exists o, output_tag o = Some Switched /\
     auto_select_once config json_output w
     = (Ok tt, record (Printed o) w3)) /\
  (fails_next w2 ->
   outputs (events w3) = outputs (events w2) /\
   exists e, auto_select_once config json_output w = (Raise e, w3)).
Proof.
  intros Hcur Hdel E Hw.
  destruct (sort_by_delay snapshot) as [|b rest] eqn:Es; [discriminate|].
  inversion E; subst b.
  destruct (auto_select_once_switch config json_output _ _ _ _ _ _ _
              Hcur Hdel Es Hw) as (o & Ho & Hrun).
  cbv zeta. split; [reflexivity|]. split; [reflexivity|].
  split; [reflexivity|]. split.
  - unfold accepts_next. intros Hacc. exists o. split; [exact Ho|].
    destruct (next_response w2) as [|status body]; [contradiction|].
    apply Z.ltb_lt in Hacc. now rewrite Hacc in Hrun.
  - unfold fails_next. intros Hf. split; [reflexivity|].
    destruct (next_response w2) as [|status body]; [eauto|].
    apply Z.ltb_ge in Hf. rewrite Hf in Hrun. eauto.
Qed.

(** C8.  With no current proxy and a non-empty snapshot the cycle ends
    with a kept report that names [best], and sends no request.  The
    report has no reason: the text computed at line 288 is in neither
    form of it, and the only trace of the missing current proxy is the
    [null] under ["current"]. *)
Theorem no_current_keeps_without_reason config json_output w w1 w2
    snapshot best :
  get_current_proxy config w = (Ok PNone, w1) ->
  get_group_delays config w1 = (Ok snapshot, w2) ->
  hd_error (sort_by_delay snapshot) = Some best ->
  fst (switch_decision config PNone None best) = false /\
  snd (switch_decision config PNone None best)
  = lit "current proxy not found, keeping best as target" /\
  auto_select_once config json_output w
  = (Ok tt,
     record (Printed (if json_output
                      then Json (PDict (kept_result PNone None best))
                      else Line (lit "kept" ++ tab ++ lit "Nonems" ++ tab)))
            w2) /\
  dict_get (kept_result PNone None best) (lit "best")
  = Some (PStr (name best)) /\
  dict_get (kept_result PNone None best) (lit "reason") = None.
Proof.
  intros Hcur Hdel E.
  destruct (sort_by_delay snapshot) as [|b rest] eqn:Es; [discriminate|].
  inversion E; subst b.
  repeat split.
  change PNone with (opt_str None) in Hcur.
  run_fetches Hcur Hdel Es. cbn [opt_str switch_decision andb].
  unfold bind at 1, ret at 1.
  destruct json_output; reflexivity.
Qed.

End Engine.

(** ** The controller client *)

Section ClientProperties.
Context {rt : PyRuntime}.

Lemma log_records_run (delays : list ProxyDelay) rs w :
  exists w',
    fold_right (fun r k => logging r ;;; k) (ret delays) rs w
    = (Ok delays, w').
Proof.
  revert w. induction rs as [|r rs IH]; intros w; simpl.
  - now exists w.
  - unfold bind, logging, emit. apply IH.
Qed.

(** Parsing a decoded body returns a snapshot or raises; it never
    diverges from these two. *)
Lemma parse_payload_run payload w :
  (exists delays w', parse_payload payload w = (Ok delays, w')) \/
  (exists e, parse_payload payload w = (Raise e, w)).
Proof.
  destruct payload as [| | | |s|l|d]; simpl;
    try (right; eexists; reflexivity).
  - right. destruct (is_substring (lit "delays") s); eexists; reflexivity.
  - right. destruct (existsb (str_equals (lit "delays")) l);
      eexists; reflexivity.
  - destruct (parse_group_delays d) as [[delays rs]|e].
    + left. destruct (log_records_run delays rs w) as [w' Hw]. eauto.
    + right. eexists; reflexivity.
Qed.

(** What [get_group_delays] does with each answer. *)
Lemma get_group_delays_run config w :
  get_group_delays config w =
  let w1 := sent (delay_request config) w in
  let failed w' := (Ok [], record (Logged WarnDelayCheckFailed) w') in
  match next_response w with
  | Unreachable => failed w1
  | Reply status body =>
      if status <? 400 then
        match body with
        | None => failed w1
        | Some payload =>
            match parse_payload payload w1 with
            | (Ok delays, w2) => (Ok delays, w2)
            | (Raise _, w2) => failed w2
            end
        end
      else failed w1
  end.
Proof.
  unfold get_group_delays, try_except, bind at 1, send.
  destruct (next_response w) as [|status body]; [reflexivity|].
  cbn [fst snd]. unfold bind at 1, raise_for_status.
  destruct (status <? 400); [|reflexivity].
  unfold ret at 1, bind at 1.
  destruct body as [payload|]; [|reflexivity].
  unfold resp_json, ret at 1. cbv zeta.
  destruct (parse_payload payload _) as [[delays|e] w2]; reflexivity.
Qed.

(** What [get_current_proxy] does with each answer. *)
Lemma get_current_proxy_run config w :
  get_current_proxy config w =
  let w1 := sent (current_request config) w in
  match next_response w with
  | Unreachable => (Raise ClientError, w1)
  | Reply status body =>
      if status <? 400 then
        match body with
        | None => (Raise JSONError, w1)
        | Some (PDict d) =>
            (Ok (match dict_get d (lit "now") with
                 | Some v => v
                 | None => PNone
                 end), w1)
        | Some _ => (Raise AttributeError, w1)
        end
      else (Raise (ClientResponseError status), w1)
  end.
Proof.
  unfold get_current_proxy, bind at 1, send.
  destruct (next_response w) as [|status body]; [reflexivity|].
  cbn [fst snd]. unfold bind at 1, raise_for_status.
  destruct (status <? 400); [|reflexivity].
  unfold ret at 1, bind at 1.
  destruct body as [[| | | | | |d]|]; reflexivity.
Qed.

(** C6.  [get_group_delays] always returns a snapshot; when the answer
    is missing, has an error status or is not JSON, the snapshot is
    empty and a warning has been logged.  On the same answers
    [get_current_proxy] raises.  It returns [None] exactly when the
    controller's object has no active selection. *)
Theorem fetch_errors_asymmetric config w :
  (exists delays w', get_group_delays config w = (Ok delays, w')) /\
  (fetch_fails w ->
   get_group_delays config w
   = (Ok [], record (Logged WarnDelayCheckFailed)
               (sent (delay_request config) w))) /\
  (fetch_fails w ->
   exists e,
     get_current_proxy config w
     = (Raise e, sent (current_request config) w)) /\
  ((exists w', get_current_proxy config w = (Ok PNone, w')) <->
   reports_no_selection w).
Proof.
  rewrite get_group_delays_run, get_current_proxy_run.
  unfold fetch_fails, reports_no_selection. cbv zeta.
  destruct (next_response w) as [|status body].
  { repeat split; eauto; try tauto. intros [w' H]; discriminate H. }
  destruct (status <? 400) eqn:Es.
  2:{ apply Z.ltb_ge in Es. repeat split; eauto.
      - intros [w' H]; discriminate H.
      - destruct body as [[| | | | | |d]|]; try tauto. lia. }
  apply Z.ltb_lt in Es.
  destruct body as [payload|].
  2:{ repeat split; eauto; try tauto. intros [w' H]; discriminate H. }
  split; [|split; [|split]].
  - destruct (parse_payload_run payload (sent (delay_request config) w))
      as [(delays & w' & ->)|(e & ->)]; eauto.
  - intros [H|H]; [lia|discriminate].
  - intros [H|H]; [lia|discriminate].
  - destruct payload as [| | | | | |d];
      try (split; [intros [w' H]; discriminate H|tauto]).
    split.
    + intros [w' H]. split; [exact Es|].
      destruct (dict_get d (lit "now")) as [v|]; [|now left].
      right. inversion H; subst. reflexivity.
    + intros [_ [H|H]]; rewrite H; eauto.
Qed.

End ClientProperties.

(** ** The poll loop *)

Section LoopProperties.
Context {rt : PyRuntime}.


(** A cycle that ends normally is followed by the interval wait, and by
    the next cycle when no signal arrived. *)
Lemma monitor_loop_next_cycle config json_output w w' stopped w'' fuel :
  auto_select_once config json_output w = (Ok tt, w') ->
  wait_for_stop w' = (Ok stopped, w'') ->
  monitor_loop (S fuel) config json_output w =
  if stopped then (Ok (Some tt), w'')
  else monitor_loop fuel config json_output w''.
Proof.
  intros H Hw. cbn [monitor_loop]. unfold bind at 1. rewrite H.
  unfold bind at 1. rewrite Hw. now destruct stopped.
Qed.

End LoopProperties.

(** ** The properties at concrete inputs *)

Section Examples.
Existing Instance ascii_runtime.

(** Current "A" at 1200 ms, best "B" at 800 ms, gap 300 ms: the switch
    request is sent and accepted, then the Switched report is printed. *)
Lemma auto_select_switches_iff_witness :
  exists o,
    output_tag o = Some Switched /\
    auto_select_once sample_config true switching_world
    = (Ok tt,
       record (Printed o)
         (sent (switch_request sample_config sample_best)
               (after_delays switching_world))).
Proof.
  destruct (auto_select_switches_iff sample_config true switching_world
              (after_current switching_world)
              (after_delays switching_world) (Some (lit "A")) sample_snapshot)
    as (b & Hb & _ & _ & _ & _ & Hsw & _).
  - reflexivity.
  - reflexivity.
  - discriminate.
  - vm_compute in Hb. inversion Hb; subst b. apply Hsw.
    + exists (lit "A"), 1200. repeat split; try discriminate; try lia.
      now left.
    + unfold accepts_next. simpl. lia.
Defined.

(** C1, counterexample.  The controller reports the empty name as
    current, and the snapshot gives that name 5000 ms and "B" 100 ms: the
    current proxy is known, it has a delay in the snapshot, the best entry
    "B" is another proxy, 5000 is above 1000 and 4900 above the gap of
    300, and the controller would accept the switch.  Line 280 takes the
    empty name for no name and looks up no delay: the cycle prints a Kept
    report with a [null] delay after its two fetches and sends no switch
    request. *)
Lemma empty_current_is_kept :
  get_current_proxy sample_config empty_current_world
  = (Ok (opt_str (Some [])), after_current empty_current_world) /\
  get_group_delays sample_config (after_current empty_current_world)
  = (Ok empty_name_snapshot, after_delays empty_current_world) /\
  hd_error (sort_by_delay empty_name_snapshot)
  = Some {| name := lit "B"; delay_ms := 100 |} /\
  claimed_switch_condition sample_config (Some []) empty_name_snapshot
    {| name := lit "B"; delay_ms := 100 |} /\
  accepts_next (after_delays empty_current_world) /\
  auto_select_once sample_config true empty_current_world
  = (Ok tt,
     record (Printed (Json (PDict (kept_result (PStr []) None
                                     {| name := lit "B";
                                        delay_ms := 100 |}))))
       (after_delays empty_current_world)) /\
  map method (requests (events (snd (auto_select_once sample_config true
                                       empty_current_world))))
  = [GET; GET] /\
  ~ (forall config json_output w w1 w2 current snapshot best,
        get_current_proxy config w = (Ok (opt_str current), w1) ->
        get_group_delays config w1 = (Ok snapshot, w2) ->
        hd_error (sort_by_delay snapshot) = Some best ->
        accepts_next w2 ->
        claimed_switch_condition config current snapshot best ->
        exists o,
          outputs (events (snd (auto_select_once config json_output w)))
          = o :: outputs (events w2) /\
          output_tag o = Some Switched).
Proof.
  assert (Hc : claimed_switch_condition sample_config (Some [])
                 empty_name_snapshot {| name := lit "B"; delay_ms := 100 |}).
  { exists [], 5000. repeat split; try discriminate; try (simpl; lia).
    now left. }
  assert (Ha : accepts_next (after_delays empty_current_world))
    by (unfold accepts_next; simpl; lia).
  split; [reflexivity|]. split; [reflexivity|]. split; [reflexivity|].
  split; [exact Hc|]. split; [exact Ha|]. split; [reflexivity|].
  split; [reflexivity|].
  intros H.
  destruct (H sample_config true empty_current_world _ _ (Some [])
              empty_name_snapshot _ eq_refl eq_refl eq_refl Ha Hc)
    as (o & Hout & Ht).
  vm_compute in Hout. inversion Hout; subst o. discriminate Ht.
Qed.



(** C3, counterexample.  The payload whose ["delays"] mapping gives 5 to
    the empty name parses to an entry whose name is empty, and
    [{"proxies": [{"name": "x", "delay": 1}, {"name": "x", "delay": 2}]}]
    to two entries named x. *)
Lemma snapshot_names_unchecked :
  parse_group_delays empty_name_payload
  = Ok ([{| name := []; delay_ms := 5 |}], []) /\
  parse_group_delays repeated_name_payload
  = Ok ([{| name := lit "x"; delay_ms := 1 |};
         {| name := lit "x"; delay_ms := 2 |}], []) /\
  ~ (forall payload snapshot logs,
        parse_group_delays payload = Ok (snapshot, logs) ->
        Forall (fun p => name p <> []) snapshot /\
        Forall (fun p => 0 <= delay_ms p) snapshot /\
        NoDup (map name snapshot)).
Proof.
  split; [reflexivity|]. split; [reflexivity|].
  intros H. destruct (H repeated_name_payload _ _ eq_refl) as (_ & _ & Hn).
  inversion Hn as [|? ? Hx _]; subst.
  apply Hx. now left.
Qed.

Lemma snapshot_delays_nonneg_witness :
  parse_group_delays delays_payload = Ok (sample_snapshot, []) /\
  well_formed delays_payload /\
  reads_proxies_list delays_payload = false /\
  Forall (fun p => 0 <= delay_ms p) sample_snapshot /\
  NoDup (map name sample_snapshot).
Proof.
  assert (Hw : well_formed delays_payload).
  { split.
    - repeat constructor; simpl; tauto.
    - intros delays H. vm_compute in H. inversion H; subst.
      repeat constructor; simpl; intuition discriminate. }
  split; [reflexivity|]. split; [exact Hw|]. split; [reflexivity|].
  destruct (snapshot_delays_nonneg delays_payload sample_snapshot []
              eq_refl) as [Hd Hn].
  split; [exact Hd|exact (Hn Hw eq_refl)].
Defined.



(** The switch is due and the controller answers 500: the cycle raises
    and prints nothing. *)
Lemma switch_failure_propagates_witness :
  fails_next (after_delays refusing_world) /\
  outputs (events (snd (auto_select_once sample_config true
                          refusing_world))) = [] /\
  exists e,
    fst (auto_select_once sample_config true refusing_world) = Raise e.
Proof.
  assert (Hf : fails_next (after_delays refusing_world))
    by (unfold fails_next; simpl; lia).
  split; [exact Hf|].
  destruct (switch_failure_propagates sample_config true refusing_world
              (after_current refusing_world) (after_delays refusing_world)
              (Some (lit "A")) sample_snapshot sample_best)
    as (_ & _ & _ & _ & Hfail).
  - reflexivity.
  - reflexivity.
  - reflexivity.
  - exists (lit "A"), 1200. repeat split; try discriminate; try lia.
    now left.
  - destruct (Hfail Hf) as (Hout & e & Hrun).
    rewrite Hrun. split; [exact Hout|]. now exists e.
Defined.

Lemma fetch_errors_asymmetric_witness :
  fetch_fails flaky_world /\
  get_group_delays sample_config flaky_world
  = (Ok [], record (Logged WarnDelayCheckFailed)
              (sent (delay_request sample_config) flaky_world)) /\
  (exists e,
      get_current_proxy sample_config flaky_world
      = (Raise e, sent (current_request sample_config) flaky_world)).
Proof.
  assert (Hf : fetch_fails flaky_world) by exact I.
  split; [exact Hf|].
  destruct (fetch_errors_asymmetric sample_config flaky_world)
    as (_ & Hd & Hc & _).
  split; [exact (Hd Hf)|exact (Hc Hf)].
Defined.

(** No current proxy, delays A 1200 ms and B 800 ms: the report is
    [{"action": "kept", "current": null, "delay_ms": null, "best": "B",
    "best_delay_ms": 800}], without a reason. *)
Lemma no_current_keeps_without_reason_witness :
  outputs (events (snd (auto_select_once sample_config true
                          no_current_world)))
  = [Json (PDict [(lit "action", PStr (lit "kept"));
                  (lit "current", PNone);
                  (lit "delay_ms", PNone);
                  (lit "best", PStr (lit "B"));
                  (lit "best_delay_ms", PInt 800)])] /\
  outputs (events (snd (auto_select_once sample_config false
                          no_current_world)))
  = [Line (lit "kept" ++ tab ++ lit "Nonems" ++ tab)].
Proof.
  split.
  - destruct (no_current_keeps_without_reason sample_config true
                no_current_world (after_current no_current_world)
                (after_delays no_current_world) sample_snapshot sample_best
                eq_refl eq_refl eq_refl) as (_ & _ & Hrun & _).
    rewrite Hrun. reflexivity.
  - destruct (no_current_keeps_without_reason sample_config false
                no_current_world (after_current no_current_world)
                (after_delays no_current_world) sample_snapshot sample_best
                eq_refl eq_refl eq_refl) as (_ & _ & Hrun & _).
    rewrite Hrun. reflexivity.
Defined.

(** Current "A" at 900 ms, best "B" at 100 ms: kept, the current delay
    being under the floor. *)
Example kept_under_floor :
  outputs (events (snd (auto_select_once sample_config true
                          (cycle_world "A" [(lit "A", PInt 900);
                                            (lit "B", PInt 100)]))))
  = [Json (PDict (kept_result (PStr (lit "A")) (Some 900)
                    {| name := lit "B"; delay_ms := 100 |}))].
Proof. reflexivity. Qed.

(** Current "A" at 1200 ms, best "B" at 1000 ms, gap 300 ms: kept, the
    advantage of 200 ms being too small. *)
Example kept_within_gap :
  outputs (events (snd (auto_select_once sample_config true
                          (cycle_world "A" [(lit "A", PInt 1200);
                                            (lit "B", PInt 1000)]))))
  = [Json (PDict (kept_result (PStr (lit "A")) (Some 1200)
                    {| name := lit "B"; delay_ms := 1000 |}))].
Proof. reflexivity. Qed.

(** The text report of a switch, and the names it sanitizes. *)
Example switched_text_report :
  outputs (events (snd (auto_select_once sample_config false
                          switching_world)))
  = [Line (lit "switched" ++ tab ++ lit "A" ++ tab ++ lit "1200ms -> 800ms"
           ++ tab ++ lit "B")] /\
  sanitize_name (lit "  a$b c!  ") = lit "ab c" /\
  _to_int (PStr (lit "-5")) = Ok (Some (-5)).
Proof. repeat split. Qed.

Lemma top_level_keys_become_entries_witness :
  exists snapshot,
    parse_group_delays error_payload = Ok (snapshot, []) /\
    collect_items error_payload = Ok snapshot /\
    In {| name := lit "error"; delay_ms := 404 |} snapshot.
Proof.
  apply (proj1 top_level_keys_become_entries
           error_payload (lit "error") (PInt 404) 404);
    try reflexivity; try discriminate; try lia.
  intros k v [H|[]]. inversion H; subst. discriminate.
Defined.

End Examples.

(* ================================================================== *)
(** * Further properties *)

(** ** More on the response parser *)

Section ParserShapes.
Context {rt : PyRuntime}.

(** An infinite float among the values stops the loop over a mapping. *)
Lemma collect_items_infinite items k sg :
  In (k, PFloat (S754_infinity sg)) items ->
  collect_items items = Raise OverflowError.
Proof.
  intros Hin. destruct (collect_items items) as [l|e] eqn:Ec.
  - destruct (collect_items_values items l _ _ Ec Hin) as [o Ho].
    discriminate Ho.
  - now destruct (collect_items_raises items e Ec) as [-> _].
Qed.

(** X1.  When ["delays"] is a mapping, the parser raises exactly when a
    value of the mapping is an infinite float, and the error is
    [OverflowError]; a snapshot it returns holds exactly the valid
    entries of the mapping: (k, z) is in the snapshot if and only if the
    mapping gives to k a value that parses as the non-negative integer
    z. *)
Theorem delays_mapping_entries payload delays :
  dict_get payload (lit "delays") = Some (PDict delays) ->
  (forall snapshot logs,
      parse_group_delays payload = Ok (snapshot, logs) ->
      forall k z,
        In {| name := k; delay_ms := z |} snapshot <->
        exists v, In (k, v) delays /\ _to_int v = Ok (Some z) /\ 0 <= z) /\
  (forall e,
      parse_group_delays payload = Raise e <->
      e = OverflowError /\
      exists k sg, In (k, PFloat (S754_infinity sg)) delays).
Proof.
  intros H. unfold parse_group_delays. rewrite H. split.
  - intros snapshot logs Hp k z.
    destruct (collect_items delays) as [l|e] eqn:Ec; [|discriminate].
    inversion Hp; subst. now apply (collect_items_In delays).
  - intros e. split.
    + destruct (collect_items delays) as [l|e'] eqn:Ec; [discriminate|].
      intros He; inversion He; subst.
      destruct (collect_items_raises delays e Ec) as (-> & k & v & Hin & Hv).
      split; [reflexivity|].
      destruct (_to_int_raises v _ Hv) as (_ & sg & ->). now exists k, sg.
    + intros (-> & k & sg & Hin).
      now rewrite (collect_items_infinite delays k sg Hin).
Qed.

(** X2.  The single-object shape of lines 121-127 never yields the
    snapshot.  A ["delay"] value it would accept is first taken by the
    top-level-map reading, under the name "delay"; so past the ["delays"]
    shape the parser raises when the top-level loop does, returns the
    top-level reading when that keeps an entry, else reads the
    ["proxies"] list when there is one, else warns and returns the empty
    snapshot. *)
Theorem single_object_shape_never_returns payload :
  (forall p snapshot logs,
      single_entry payload = Ok (Some p) ->
      parse_after_delays payload = Ok (snapshot, logs) ->
      In {| name := lit "delay"; delay_ms := delay_ms p |} snapshot) /\
  parse_after_delays payload =
  match collect_items payload with
  | Raise e => Raise e
  | Ok (d :: delays) => Ok (d :: delays, [])
  | Ok [] =>
      match dict_get payload (lit "proxies") with
      | Some (PList items) =>
          match collect_proxies items with
          | Raise e => Raise e
          | Ok delays => Ok (delays, [])
          end
      | _ => Ok ([], [WarnUnexpectedShape payload])
      end
  end.
Proof.
  split; [|apply parse_after_delays_eq].
  intros p snapshot logs Hs. rewrite parse_after_delays_eq.
  destruct (collect_items payload) as [[|d delays]|e] eqn:Ec;
    [| |discriminate].
  - destruct (single_entry_is_top_level payload p [] Hs Ec).
  - intros H; inversion H; subst.
    now apply (single_entry_is_top_level payload p).
Qed.

Lemma collect_proxies_In items : forall delays n z,
  collect_proxies items = Ok delays ->
  In {| name := n; delay_ms := z |} delays <->
  exists item v,
    In (PDict item) items /\
    dict_get item (lit "name") = Some (PStr n) /\
    dict_get item (lit "delay") = Some v /\
    _to_int v = Ok (Some z) /\ 0 <= z.
Proof.
  induction items as [|it items IH]; intros delays n z; simpl.
  - intros H; inversion H; subst.
    split; [intros []|intros (item & v & [] & _)].
  - assert (Hskip :
      (forall item v, it = PDict item ->
         dict_get item (lit "name") = Some (PStr n) ->
         dict_get item (lit "delay") = Some v ->
         _to_int v = Ok (Some z) -> 0 <= z -> False) ->
      collect_proxies items = Ok delays ->
      In {| name := n; delay_ms := z |} delays <->
      exists item v,
        (it = PDict item \/ In (PDict item) items) /\
        dict_get item (lit "name") = Some (PStr n) /\
        dict_get item (lit "delay") = Some v /\
        _to_int v = Ok (Some z) /\ 0 <= z).
    { intros Hno Hc. rewrite (IH delays n z Hc). split.
      - intros (item & v & Hin & H). exists item, v. tauto.
      - intros (item & v & [Hit|Hin] & Hn & Hd & Hv & Hz).
        + destruct (Hno item v Hit Hn Hd Hv Hz).
        + exists item, v. tauto. }
    destruct it as [| | | | |l|d];
      try (apply Hskip; intros; discriminate).
    destruct (dict_get d (lit "name")) as [[| | | |s| |]|] eqn:En;
      try (apply Hskip; intros item v Hit; inversion Hit; subst; congruence).
    destruct (_to_int _) as [o|e] eqn:Ev; [|discriminate].
    destruct (collect_proxies items) as [rest|e] eqn:Er; [|discriminate].
    intros H; inversion H; subst. rewrite keep_entry_In.
    rewrite (IH rest n z eq_refl). split.
    + intros [(z' & -> & Hz & Hp)|(item & v & Hin & Hrest)].
      * inversion Hp; subst.
        destruct (dict_get d (lit "delay")) as [dv|] eqn:Ed;
          [|discriminate Ev].
        exists d, dv. auto 6.
      * exists item, v. tauto.
    + intros (item & v & [Hit|Hin] & Hn & Hd & Hv & Hz).
      * inversion Hit; subst. left. exists z.
        rewrite En in Hn. inversion Hn; subst.
        rewrite Hd, Hv in Ev. inversion Ev; subst. auto.
      * right. exists item, v. tauto.
Qed.

(** X3.  When the snapshot is read from the list under ["proxies"], it
    holds exactly the valid items: (n, z) is in the snapshot if and only
    if some item of the list is an object whose ["name"] is the [str] n
    and whose ["delay"] parses as the non-negative integer z.  Items that
    are no objects, lack a field or have another kind of name are
    skipped. *)
Theorem proxies_list_entries payload items snapshot logs n z :
  reads_proxies_list payload = true ->
  dict_get payload (lit "proxies") = Some (PList items) ->
  parse_group_delays payload = Ok (snapshot, logs) ->
  In {| name := n; delay_ms := z |} snapshot <->
  exists item v,
    In (PDict item) items /\
    dict_get item (lit "name") = Some (PStr n) /\
    dict_get item (lit "delay") = Some v /\
    _to_int v = Ok (Some z) /\ 0 <= z.
Proof.
  unfold reads_proxies_list, parse_group_delays, parse_after_delays.
  intros Hr Hp.
  assert (Ha :
    match collect_items payload with
    | Ok [] =>
        match dict_get payload (lit "proxies") with
        | Some (PList _) => true
        | _ => false
        end
    | _ => false
    end = true ->
    match collect_items payload with
    | Raise e => Raise e
    | Ok (d :: delays) => Ok (d :: delays, [])
    | Ok [] =>
        match dict_get payload (lit "proxies") with
        | Some (PList items) =>
            match collect_proxies items with
            | Raise e => Raise e
            | Ok delays => Ok (delays, [])
            end
        | _ =>
            match single_entry payload with
            | Raise e => Raise e
            | Ok (Some d) => Ok ([d], [])
            | Ok None => Ok ([], [WarnUnexpectedShape payload])
            end
        end
    end = Ok (snapshot, logs) ->
    collect_proxies items = Ok snapshot).
  { destruct (collect_items payload) as [[|q qs]|e]; try discriminate.
    rewrite Hp. intros _.
    destruct (collect_proxies items) as [l|e]; [|discriminate].
    intros H; inversion H; subst. reflexivity. }
  intros Hparse. apply collect_proxies_In.
  destruct (dict_get payload (lit "delays")) as [[| | | | | |?]|];
    try discriminate; now apply Ha.
Qed.

(** X4.  The parser returns with its unexpected-shape warning exactly
    when no shape applied: ["delays"] is no mapping, the top-level loop
    completes and keeps nothing, and ["proxies"] is no list.  It logs
    nothing else, and the snapshot is then empty. *)
Theorem unexpected_shape_warning payload :
  ((exists snapshot,
       parse_group_delays payload
       = Ok (snapshot, [WarnUnexpectedShape payload])) <->
   (forall d, dict_get payload (lit "delays") <> Some (PDict d)) /\
   collect_items payload = Ok [] /\
   (forall l, dict_get payload (lit "proxies") <> Some (PList l))) /\
  (forall snapshot logs,
      parse_group_delays payload = Ok (snapshot, logs) ->
      logs = [] \/
      logs = [WarnUnexpectedShape payload] /\ snapshot = []).
Proof.
  assert (Ha :
    ((exists snapshot,
         parse_after_delays payload
         = Ok (snapshot, [WarnUnexpectedShape payload])) <->
     collect_items payload = Ok [] /\
     (forall l, dict_get payload (lit "proxies") <> Some (PList l))) /\
    (forall snapshot logs,
        parse_after_delays payload = Ok (snapshot, logs) ->
        logs = [] \/
        logs = [WarnUnexpectedShape payload] /\ snapshot = [])).
  { rewrite parse_after_delays_eq.
    destruct (collect_items payload) as [[|q qs]|e] eqn:Ec.
    - destruct (dict_get payload (lit "proxies")) as [[| | | | |l|]|];
        try (split; [split; [intros _; split; [reflexivity|discriminate]
                            |intros _; eexists; reflexivity]
                    |intros snapshot logs H; inversion H; subst;
                     right; split; reflexivity]).
      destruct (collect_proxies l) as [ds|e].
      + split; [split; [intros [sn H]; discriminate H
                       |intros [_ H]; now destruct (H l)]
               |intros snapshot logs H; inversion H; now left].
      + split; [split; [intros [sn H]; discriminate H
                       |intros [_ H]; now destruct (H l)]
               |intros snapshot logs H; discriminate H].
    - split; [split; [intros [sn H]; discriminate H
                     |intros [H _]; discriminate H]
             |intros snapshot logs H; inversion H; now left].
    - split; [split; [intros [sn H]; discriminate H
                     |intros [H _]; discriminate H]
             |intros snapshot logs H; discriminate H]. }
  unfold parse_group_delays.
  destruct (dict_get payload (lit "delays")) as [[| | | | | |d]|];
    try (destruct Ha as [[Ha1 Ha2] Hb]; split; [|exact Hb];
         split; [intros H; split; [discriminate|now apply Ha1]
                |intros (_ & H1 & H2); now apply Ha2]).
  destruct (collect_items d) as [l|e].
  - split; [split; [intros [sn H]; discriminate H
                   |intros (H & _); now destruct (H d)]
           |intros snapshot logs H; inversion H; now left].
  - split; [split; [intros [sn H]; discriminate H
                   |intros (H & _); now destruct (H d)]
           |intros snapshot logs H; discriminate H].
Qed.

End ParserShapes.

(** ** More on the name sanitizer *)

Lemma lstrip_incl s ch : In ch (lstrip s) -> In ch s.
Proof.
  destruct (lstrip_suffix s) as [p Hp]. intros H.
  rewrite Hp. apply in_or_app. now right.
Qed.

Lemma lstrip_length s : (List.length (lstrip s) <= List.length s)%nat.
Proof.
  destruct (lstrip_suffix s) as [p Hp]. rewrite Hp at 2.
  rewrite length_app. lia.
Qed.

Lemma strip_incl s ch : In ch (strip s) -> In ch s.
Proof.
  unfold strip, rstrip. intros H.
  apply in_rev, lstrip_incl in H. apply in_rev in H.
  now apply lstrip_incl.
Qed.

Lemma strip_length s : (List.length (strip s) <= List.length s)%nat.
Proof.
  unfold strip, rstrip. rewrite length_rev.
  pose proof (lstrip_length (rev (lstrip s))) as H1.
  rewrite length_rev in H1. pose proof (lstrip_length s). lia.
Qed.

Lemma strip_last s :
  match rev (strip s) with [] => True | ch :: _ => isspace ch = false end.
Proof. unfold strip, rstrip. rewrite rev_involutive. apply lstrip_head. Qed.

Lemma strip_first s :
  match strip s with [] => True | ch :: _ => isspace ch = false end.
Proof. apply rstrip_head, lstrip_head. Qed.

Lemma strip_fixed s :
  match s with [] => True | ch :: _ => isspace ch = false end ->
  match rev s with [] => True | ch :: _ => isspace ch = false end ->
  strip s = s.
Proof.
  intros Hf Hl. unfold strip, rstrip.
  rewrite (lstrip_fixed s Hf), (lstrip_fixed (rev s) Hl).
  apply rev_involutive.
Qed.

Section SanitizerShapes.
Context {rt : PyRuntime}.

Lemma cleaned_incl s ch : In ch (cleaned s) -> In ch s.
Proof.
  induction s as [|a s IH]; simpl; [tauto|].
  destruct (keeps a); simpl; intuition.
Qed.

Lemma cleaned_length s : (List.length (cleaned s) <= List.length s)%nat.
Proof.
  induction s as [|a s IH]; simpl; [lia|].
  destruct (keeps a); simpl; lia.
Qed.

(** X5.  Sanitization only removes: every character of the result occurs
    in the input, the result is no longer than the input, and it neither
    starts nor ends with whitespace. *)
Theorem sanitize_name_only_removes s :
  (forall ch, In ch (sanitize_name s) -> In ch s) /\
  (List.length (sanitize_name s) <= List.length s)%nat /\
  match sanitize_name s with
  | [] => True
  | ch :: _ => isspace ch = false
  end /\
  match rev (sanitize_name s) with
  | [] => True
  | ch :: _ => isspace ch = false
  end.
Proof.
  unfold sanitize_name. split; [|split; [|split]].
  - intros ch H. now apply cleaned_incl, strip_incl.
  - pose proof (strip_length (cleaned s)). pose proof (cleaned_length s). lia.
  - apply strip_first.
  - apply strip_last.
Qed.

(** X6.  The names sanitization leaves unchanged are exactly those made
    of kept characters that neither start nor end with whitespace. *)
Theorem sanitize_name_fixed_points s :
  sanitize_name s = s <->
  Forall (fun ch => keeps ch = true) s /\
  match s with [] => True | ch :: _ => isspace ch = false end /\
  match rev s with [] => True | ch :: _ => isspace ch = false end.
Proof.
  split.
  - intros E. rewrite <- E. split; [|split].
    + apply strip_Forall, cleaned_keeps.
    + apply strip_first.
    + apply strip_last.
  - intros (Hk & Hf & Hl). unfold sanitize_name.
    rewrite (cleaned_fixed s Hk). now apply strip_fixed.
Qed.

End SanitizerShapes.

(** ** The best entry *)

(** X7.  The entry a cycle takes for best is the first entry of the
    snapshot, in the order the parser produced it, that has the minimum
    delay: every earlier entry is strictly slower, no later one is
    faster. *)
Theorem best_is_first_minimum l best rest :
  sort_by_delay l = best :: rest ->
  exists before after,
    l = before ++ best :: after /\
    Forall (fun p => delay_ms best < delay_ms p) before /\
    Forall (fun p => delay_ms best <= delay_ms p) after.
Proof.
  revert best rest. induction l as [|x l IH]; intros best rest; simpl;
    [discriminate|].
  destruct (sort_by_delay l) as [|b r] eqn:Es; simpl.
  - destruct l as [|y l'].
    + intros H; inversion H; subst. exists [], []. repeat split; constructor.
    + exfalso. destruct (sort_by_delay_nonempty (y :: l')) as (b & r & E);
        [discriminate|]. congruence.
  - destruct (IH b r eq_refl) as (l1 & l2 & El & H1 & H2).
    destruct (delay_ms x <=? delay_ms b) eqn:E.
    + apply Z.leb_le in E. intros H; inversion H; subst best rest.
      exists [], l. split; [reflexivity|]. split; [constructor|].
      rewrite El. apply Forall_app. split.
      * eapply Forall_impl; [|exact H1]. simpl; intros; lia.
      * constructor; [exact E|].
        eapply Forall_impl; [|exact H2]. simpl; intros; lia.
    + apply Z.leb_gt in E. intros H; inversion H; subst best rest.
      exists (x :: l1), l2. split; [now rewrite El|].
      split; [|exact H2]. constructor; [exact E|exact H1].
Qed.

(** ** What a cycle does to the world *)

Lemma only_logged_refl w : only_logged w w.
Proof. repeat split. Qed.

Section Footprint.
Context {rt : PyRuntime}.

Lemma log_records_world (delays : list ProxyDelay) rs w :
  exists w',
    fold_right (fun r k => logging r ;;; k) (ret delays) rs w
    = (Ok delays, w') /\ only_logged w w'.
Proof.
  revert w. induction rs as [|r rs IH]; intros w; simpl.
  - exists w. split; [reflexivity|apply only_logged_refl].
  - unfold bind at 1.
    change (logging r w) with (Ok tt, record (Logged r) w).
    destruct (IH (record (Logged r) w)) as (w' & E & H).
    rewrite E. exists w'. split; [reflexivity|exact H].
Qed.

Lemma parse_payload_world payload w :
  exists r w', parse_payload payload w = (r, w') /\ only_logged w w'.
Proof.
  destruct payload as [| | | |s|l|d]; simpl;
    try (eexists; eexists; split; [reflexivity|apply only_logged_refl]).
  - destruct (is_substring (lit "delays") s);
      eexists; eexists; (split; [reflexivity|apply only_logged_refl]).
  - destruct (existsb (str_equals (lit "delays")) l);
      eexists; eexists; (split; [reflexivity|apply only_logged_refl]).
  - destruct (parse_group_delays d) as [[delays rs]|e].
    + destruct (log_records_world delays rs w) as (w' & -> & H). eauto.
    + eexists; eexists; split; [reflexivity|apply only_logged_refl].
Qed.

(** The delay fetch uses one answer, sends one request and prints
    nothing. *)
Lemma get_group_delays_world config w :
  exists delays w',
    get_group_delays config w = (Ok delays, w') /\
    script w' = tl (script w) /\ stops w' = stops w /\
    outputs (events w') = outputs (events w) /\
    requests (events w') = delay_request config :: requests (events w).
Proof.
  rewrite get_group_delays_run. cbv zeta.
  destruct (next_response w) as [|status body].
  { eexists; eexists; split; [reflexivity|]. repeat split. }
  destruct (status <? 400).
  2:{ eexists; eexists; split; [reflexivity|]. repeat split. }
  destruct body as [payload|].
  2:{ eexists; eexists; split; [reflexivity|]. repeat split. }
  destruct (parse_payload_world payload (sent (delay_request config) w))
    as (r & w' & -> & Hs & Ht & Ho & Hr).
  destruct r as [delays|e]; eexists; eexists; (split; [reflexivity|]);
    simpl; rewrite Hs, Ht, Ho, Hr; repeat split.
Qed.

Lemma get_current_proxy_world config w :
  exists r, get_current_proxy config w = (r, sent (current_request config) w).
Proof.
  rewrite get_current_proxy_run. cbv zeta.
  destruct (next_response w) as [|status body]; [eauto|].
  destruct (status <? 400); [|eauto].
  destruct body as [[| | | | | |d]|]; eauto.
Qed.

Lemma current_delay_world (current : pyval) m w :
  exists r,
    (if truthy current then delay_map_get m current else ret None) w = (r, w).
Proof.
  destruct (truthy current); [|eexists; reflexivity].
  destruct current; eexists; reflexivity.
Qed.

Lemma sanitize_current_world current w :
  exists r, sanitize_current current w = (r, w).
Proof.
  unfold sanitize_current.
  destruct (if truthy current then current else PStr []);
    eexists; reflexivity.
Qed.

Lemma switch_proxy_world config best w :
  exists r, switch_proxy config best w = (r, sent (switch_request config best) w).
Proof.
  unfold switch_proxy, bind, send.
  destruct (next_response w) as [|status body]; [eauto|].
  cbn [fst]. unfold raise_for_status.
  destruct (status <? 400); eexists; reflexivity.
Qed.

(** What one cycle leaves behind.  It uses no wait.  When it returns it
    has printed exactly one report; when it raises it has printed
    nothing.  It sends its requests in a fixed order: the current-proxy
    fetch, then the delay fetch, then at most one mutation. *)
Lemma auto_select_once_world config json_output w r w' :
  auto_select_once config json_output w = (r, w') ->
  stops w' = stops w /\
  match r with
  | Ok _ => exists o, outputs (events w') = o :: outputs (events w)
  | Raise _ => outputs (events w') = outputs (events w)
  end /\
  (requests (events w') = current_request config :: requests (events w) \/
   requests (events w')
   = delay_request config :: current_request config :: requests (events w) \/
   exists best,
     requests (events w')
     = switch_request config best :: delay_request config
       :: current_request config :: requests (events w)).
Proof.
  unfold auto_select_once, bind at 1.
  destruct (get_current_proxy_world config w) as (r1 & ->).
  destruct r1 as [current|e].
  2:{ intros H; inversion H; subst. simpl. auto. }
  unfold bind at 1.
  destruct (get_group_delays_world config (sent (current_request config) w))
    as (delays & w2 & -> & _ & Ht & Ho & Hr).
  simpl in Ht, Ho, Hr.
  destruct (sort_by_delay delays) as [|best rest].
  { destruct json_output; intros H; inversion H; subst; simpl;
      rewrite Ht, Ho, Hr; eauto 6. }
  unfold bind at 1.
  destruct (current_delay_world current (delay_map_of (best :: rest)) w2)
    as (r3 & ->).
  destruct r3 as [cd|e].
  2:{ intros H; inversion H; subst. rewrite Ht, Ho, Hr. auto. }
  destruct (switch_decision config current cd best) as [sw reason].
  unfold bind at 1.
  destruct (sw && negb (str_equals (name best) current)).
  - unfold bind at 1.
    destruct (switch_proxy_world config best w2) as (r4 & ->).
    destruct r4 as [[]|e].
    2:{ intros H; inversion H; subst. simpl. rewrite Ht, Ho, Hr. eauto 6. }
    unfold ret at 1.
    destruct json_output.
    { intros H; inversion H; subst. simpl. rewrite Ht, Ho, Hr. eauto 7. }
    rewrite switched_result_action. unfold bind at 1.
    destruct (sanitize_current_world current
                (sent (switch_request config best) w2)) as (r5 & ->).
    destruct r5 as [from_name|e];
      intros H; inversion H; subst; simpl; rewrite Ht, Ho, Hr; eauto 7.
  - unfold ret at 1.
    destruct json_output.
    { intros H; inversion H; subst. simpl. rewrite Ht, Ho, Hr. eauto 6. }
    rewrite kept_result_action. unfold bind at 1.
    destruct (sanitize_current_world current w2) as (r5 & ->).
    destruct r5 as [keep_name|e];
      intros H; inversion H; subst; simpl; rewrite ?Ht, ?Ho, ?Hr; eauto 6.
Qed.

End Footprint.

Section CycleProperties.
Context {rt : PyRuntime}.

(** X8.  What one cycle leaves behind, whatever the controller answers.
    When it returns it has printed exactly one report; when it raises it
    has printed nothing.  Its requests come in a fixed order: the
    current-proxy fetch, then the delay fetch, then at most one
    mutation. *)
Theorem cycle_reports_once config json_output w r w' :
  auto_select_once config json_output w = (r, w') ->
  match r with
  | Ok _ => exists o, outputs (events w') = o :: outputs (events w)
  | Raise _ => outputs (events w') = outputs (events w)
  end /\
  (requests (events w') = current_request config :: requests (events w) \/
   requests (events w')
   = delay_request config :: current_request config :: requests (events w) \/
   exists best,
     requests (events w')
     = switch_request config best :: delay_request config
       :: current_request config :: requests (events w)).
Proof.
  intros H.
  destruct (auto_select_once_world config json_output w r w' H)
    as (_ & H1 & H2).
  split; assumption.
Qed.

(** X9.  With an empty snapshot the cycle reports that there is no delay
    data and ends normally, whatever the current proxy is; no mutation is
    sent.  This is what a failed delay fetch leads to. *)
Theorem no_delay_data_reported config (json_output : bool) w w1 current :
  get_current_proxy config w = (Ok current, w1) ->
  let report :=
    Printed (if json_output
             then Json (PDict [(lit "error", PStr (lit "no delay data"))])
             else Line (lit "No delay data returned")) in
  (forall w2,
      get_group_delays config w1 = (Ok [], w2) ->
      auto_select_once config json_output w = (Ok tt, record report w2)) /\
  (fetch_fails w1 ->
   auto_select_once config json_output w
   = (Ok tt, record report
               (record (Logged WarnDelayCheckFailed)
                  (sent (delay_request config) w1)))).
Proof.
  intros Hcur report.
  assert (Hgen : forall w2,
    get_group_delays config w1 = (Ok [], w2) ->
    auto_select_once config json_output w = (Ok tt, record report w2)).
  { intros w2 Hdel. unfold auto_select_once, bind at 1. rewrite Hcur.
    unfold bind at 1. rewrite Hdel. simpl sort_by_delay. cbv iota.
    subst report. destruct json_output; reflexivity. }
  split; [exact Hgen|].
  intros Hf. apply Hgen. rewrite get_group_delays_run. cbv zeta.
  unfold fetch_fails in Hf.
  destruct (next_response w1) as [|status body]; [reflexivity|].
  destruct (status <? 400) eqn:Es; [|reflexivity].
  apply Z.ltb_lt in Es. destruct Hf as [Hf|Hf]; [lia|].
  now rewrite Hf.
Qed.

(** X10.  When the current-proxy fetch fails, the cycle raises at once:
    the delays are not fetched, nothing is printed, and the one request
    sent is that fetch. *)
Theorem current_fetch_failure_ends_cycle config json_output w :
  fetch_fails w ->
  exists e,
    auto_select_once config json_output w
    = (Raise e, sent (current_request config) w) /\
    requests (events (sent (current_request config) w))
    = current_request config :: requests (events w) /\
    outputs (events (sent (current_request config) w)) = outputs (events w).
Proof.
  intros Hf.
  assert (H : exists e, get_current_proxy config w
                        = (Raise e, sent (current_request config) w)).
  { rewrite get_current_proxy_run. cbv zeta. unfold fetch_fails in Hf.
    destruct (next_response w) as [|status body]; [eauto|].
    destruct (status <? 400) eqn:Es; [|eauto].
    apply Z.ltb_lt in Es. destruct Hf as [Hf|Hf]; [lia|].
    rewrite Hf. eauto. }
  destruct H as (e & He). exists e.
  unfold auto_select_once, bind at 1. rewrite He. repeat split.
Qed.

(** X11.  A current proxy that the controller reports as a non-empty
    array or object cannot be looked up in the delay map: with a
    non-empty snapshot the cycle raises [TypeError] after both fetches,
    and neither prints nor switches. *)
Theorem unhashable_current_raises config json_output w w1 w2 current
    snapshot :
  get_current_proxy config w = (Ok current, w1) ->
  get_group_delays config w1 = (Ok snapshot, w2) ->
  snapshot <> [] ->
  (exists x l, current = PList (x :: l)) \/
  (exists kv d, current = PDict (kv :: d)) ->
  auto_select_once config json_output w = (Raise TypeError, w2).
Proof.
  intros Hcur Hdel Hne Hu.
  destruct (sort_by_delay_nonempty snapshot Hne) as (best & rest & E).
  unfold auto_select_once, bind at 1. rewrite Hcur.
  unfold bind at 1. rewrite Hdel, E. unfold bind at 1.
  destruct Hu as [(x & l & ->)|(kv & d & ->)]; reflexivity.
Qed.


End CycleProperties.

(** ** More on the poll loop *)

Section LoopShapes.
Context {rt : PyRuntime}.

(** X13.  A termination signal that arrives during the first cycle or
    the wait after it lets that cycle finish and ends the loop normally:
    no second cycle runs, so that what has been sent and printed when the
    loop returns is what that one cycle sent and printed, and the answers
    of the controller it did not use are left. *)
Theorem signal_ends_loop_after_cycle config json_output w w1 rest fuel :
  auto_select_once config json_output w = (Ok tt, w1) ->
  stops w = true :: rest ->
  monitor_loop (S fuel) config json_output w
  = (Ok (Some tt),
     {| script := script w1; stops := rest; events := events w1 |}).
Proof.
  intros Hrun Hs.
  destruct (auto_select_once_world _ _ _ _ _ Hrun) as (Hst & _).
  rewrite Hs in Hst.
  assert (Hw : wait_for_stop w1
               = (Ok true, {| script := script w1; stops := rest;
                              events := events w1 |})).
  { unfold wait_for_stop. rewrite Hst. reflexivity. }
  now rewrite (monitor_loop_next_cycle _ _ _ _ _ _ fuel Hrun Hw).
Qed.

(** X14.  The loop ends normally only on a signal.  If it does, some
    number n of waits timed out before the one the signal ended, and the
    loop ran n + 1 cycles, each of which printed one report. *)
Theorem loop_ends_on_signal_only fuel : forall config json_output w w',
  monitor_loop fuel config json_output w = (Ok (Some tt), w') ->
  exists n,
    stops w = repeat false n ++ true :: stops w' /\
    List.length (outputs (events w'))
    = (List.length (outputs (events w)) + n + 1)%nat.
Proof.
  induction fuel as [|fuel IH]; intros config json_output w w'.
  { simpl. unfold ret. intros H; inversion H. }
  cbn [monitor_loop]. unfold bind at 1.
  destruct (auto_select_once config json_output w) as [[[]|e] w1] eqn:Hrun;
    [|intros H; inversion H].
  destruct (auto_select_once_world _ _ _ _ _ Hrun) as (Hst & (o & Ho) & _).
  unfold bind at 1, wait_for_stop. rewrite Hst.
  destruct (stops w) as [|[|] ss] eqn:Es; cbn [tl].
  - intros H. apply IH in H. destruct H as (n & Hn & _).
    simpl in Hn. destruct n; discriminate Hn.
  - unfold ret. intros H; inversion H; subst. simpl.
    exists 0%nat. rewrite Ho. simpl. split; [reflexivity|lia].
  - intros H. apply IH in H. destruct H as (n & Hn & Hl).
    simpl in Hn, Hl. exists (S n).
    split; [simpl; now rewrite Hn|].
    rewrite Hl, Ho; simpl; lia.
Qed.

End LoopShapes.

(** ** The one-shot commands *)

Lemma sort_by_delay_length l :
  List.length (sort_by_delay l) = List.length l.
Proof.
  assert (Hi : forall x s,
             List.length (insert_by_delay x s) = S (List.length s)).
  { intros x s. induction s as [|y s IH]; simpl; [reflexivity|].
    destruct (delay_ms x <=? delay_ms y); simpl; [reflexivity|].
    now rewrite IH. }
  induction l as [|x l IH]; simpl; [reflexivity|].
  now rewrite Hi, IH.
Qed.

Lemma insert_by_delay_perm x l : Permutation (insert_by_delay x l) (x :: l).
Proof.
  induction l as [|y l IH]; simpl; [apply Permutation_refl|].
  destruct (delay_ms x <=? delay_ms y); [apply Permutation_refl|].
  eapply perm_trans; [apply perm_skip, IH|apply perm_swap].
Qed.

Lemma sort_by_delay_perm l : Permutation (sort_by_delay l) l.
Proof.
  induction l as [|x l IH]; simpl; [constructor|].
  eapply perm_trans; [apply insert_by_delay_perm|now apply perm_skip].
Qed.

Lemma last_delay_none c l :
  last_delay c l = None -> forall d, ~ In {| name := c; delay_ms := d |} l.
Proof.
  induction l as [|p l IH]; simpl; [tauto|].
  destruct (last_delay c l) as [d'|]; [discriminate|].
  destruct (str_eq_dec c (name p)) as [|Hn]; [discriminate|].
  intros _ d [H|H]; [subst p; now apply Hn|now apply (IH eq_refl d)].
Qed.

Lemma last_delay_unique c d l :
  NoDup (map name l) ->
  In {| name := c; delay_ms := d |} l ->
  last_delay c l = Some d.
Proof.
  induction l as [|p l IH]; simpl; [tauto|].
  intros Hn. inversion Hn as [|? ? Hp Hl]; subst. intros [->|Hin].
  - simpl in *. destruct (last_delay c l) as [d'|] eqn:E.
    + exfalso. apply Hp. apply last_delay_In in E.
      now apply (in_map name) in E.
    + now destruct (str_eq_dec c c).
  - now rewrite (IH Hl Hin).
Qed.

Section CommandProperties.
Context {rt : PyRuntime}.

Lemma print_lines_run l w :
  print_lines l w
  = (Ok tt, {| script := script w; stops := stops w;
               events := rev (map (fun item => Printed (Line (delay_line item)))
                                  l) ++ events w |}).
Proof.
  revert w. induction l as [|item l IH]; intros w; simpl.
  - unfold ret. now destruct w.
  - unfold bind at 1, print, emit. rewrite IH. simpl.
    now rewrite <- app_assoc.
Qed.

Lemma outputs_app_printed os evs :
  outputs (map Printed os ++ evs) = os ++ outputs evs.
Proof. induction os as [|o os IH]; simpl; [reflexivity|now rewrite IH]. Qed.

Lemma requests_app_printed os evs :
  requests (map Printed os ++ evs) = requests evs.
Proof. induction os as [|o os IH]; simpl; [reflexivity|exact IH]. Qed.

Lemma print_delays_once_run config json_output w snapshot w1 :
  get_group_delays config w = (Ok snapshot, w1) ->
  print_delays_once config json_output w
  = (Ok tt,
     {| script := script w1; stops := stops w1;
        events := map Printed
                    (rev (delay_reports json_output
                            (firstn 10 (sort_by_delay snapshot))))
                  ++ events w1 |}).
Proof.
  intros Hdel. unfold print_delays_once, bind at 1. rewrite Hdel.
  destruct (firstn 10 (sort_by_delay snapshot)) as [|p top] eqn:E.
  - destruct json_output; reflexivity.
  - destruct json_output; [reflexivity|].
    rewrite print_lines_run.
    change (delay_reports false (p :: top))
      with (map (fun item => Line (delay_line item)) (p :: top)).
    now rewrite map_rev, map_map.
Qed.

(** X15.  [print_delays_once] never raises, whatever the controller
    does.  It sends the one delay request and prints at least one line:
    exactly one in JSON mode, at most ten in text mode. *)
Theorem print_delays_once_never_raises config json_output w :
  exists w' reports,
    print_delays_once config json_output w = (Ok tt, w') /\
    requests (events w') = delay_request config :: requests (events w) /\
    outputs (events w') = reports ++ outputs (events w) /\
    (1 <= List.length reports <= 10)%nat /\
    (json_output = true -> List.length reports = 1%nat).
Proof.
  destruct (get_group_delays_world config w)
    as (snapshot & w1 & Hdel & _ & _ & Ho & Hr).
  rewrite (print_delays_once_run _ _ _ _ _ Hdel).
  pose proof (firstn_le_length 10 (sort_by_delay snapshot)) as Hle.
  set (top := firstn 10 (sort_by_delay snapshot)) in *. clearbody top.
  eexists; eexists. split; [reflexivity|]. cbn [events].
  rewrite requests_app_printed, outputs_app_printed, Ho, Hr.
  split; [reflexivity|]. split; [reflexivity|].
  rewrite length_rev. unfold delay_reports.
  destruct top as [|p top]; destruct json_output; simpl in *;
    rewrite ?length_map;
    (split; [lia|intros Hj; try discriminate Hj; reflexivity]).
Qed.

(** X16.  [print_delays_once] reports the ten fastest entries, fastest
    first: the entries printed are entries of the snapshot, in ascending
    order of delay, at most ten, and no entry left out is faster than a
    printed one.  Text mode prints one line per entry, in that order, with
    the sanitized name; JSON mode prints one array with the names as
    received. *)
Theorem print_delays_once_top_ten config json_output w snapshot w1 :
  get_group_delays config w = (Ok snapshot, w1) ->
  exists top left_out w',
    sort_by_delay snapshot = top ++ left_out /\
    List.length top = Nat.min 10 (List.length snapshot) /\
    StronglySorted by_delay top /\
    (forall p q, In p top -> In q left_out -> delay_ms p <= delay_ms q) /\
    (forall p, In p top -> In p snapshot) /\
    print_delays_once config json_output w = (Ok tt, w') /\
    events w'
    = map Printed (rev (delay_reports json_output top)) ++ events w1.
Proof.
  intros Hdel.
  exists (firstn 10 (sort_by_delay snapshot)),
         (skipn 10 (sort_by_delay snapshot)).
  rewrite (print_delays_once_run _ _ _ _ _ Hdel).
  pose proof (sort_by_delay_sorted snapshot) as Hs.
  rewrite <- (firstn_skipn 10 (sort_by_delay snapshot)) in Hs.
  eexists. split; [now rewrite firstn_skipn|].
  split; [now rewrite length_firstn, sort_by_delay_length|].
  split; [|split; [|split; [|split; reflexivity]]].
  - clear -Hs. revert Hs.
    generalize (firstn 10 (sort_by_delay snapshot)) as top.
    generalize (skipn 10 (sort_by_delay snapshot)) as lo.
    intros lo top. induction top as [|p top IH]; simpl; [constructor|].
    intros H. inversion H as [|? ? Hs Hall]; subst.
    constructor; [now apply IH|].
    apply Forall_app in Hall. tauto.
  - clear -Hs. revert Hs.
    generalize (firstn 10 (sort_by_delay snapshot)) as top.
    generalize (skipn 10 (sort_by_delay snapshot)) as lo.
    intros lo top. induction top as [|p top IH]; simpl; [tauto|].
    intros H p' q [->|Hp] Hq.
    + inversion H as [|? ? _ Hall]; subst.
      apply Forall_app in Hall. destruct Hall as [_ Hall].
      rewrite Forall_forall in Hall. now apply Hall.
    + inversion H; subst. now apply IH.
  - intros p Hp. apply sort_by_delay_In.
    rewrite <- (firstn_skipn 10 (sort_by_delay snapshot)).
    apply in_or_app. now left.
Qed.

(** X17.  When the controller reports no current proxy ([null], no
    ["now"], the empty name, or any other falsy value),
    [print_current_delay_once] says so and is done: it does not ask for
    the delays. *)
Theorem current_not_found_skips_delays config (json_output : bool) w w1
    current :
  get_current_proxy config w = (Ok current, w1) ->
  truthy current = false ->
  print_current_delay_once config json_output w
  = (Ok tt,
     record (Printed (if json_output
                      then Json (PDict [(lit "error",
                                         PStr (lit "current proxy not found"))])
                      else Line (lit "Current proxy not found")))
            w1).
Proof.
  intros Hcur Hf. unfold print_current_delay_once, bind at 1.
  rewrite Hcur, Hf. simpl negb. cbv iota.
  destruct json_output; reflexivity.
Qed.

(** X18.  For a current proxy that is a non-empty name,
    [print_current_delay_once] reports the delay of the last entry of
    that name in the snapshot, in the order the parser produced it, or
    that the delay is unavailable when there is none.  The JSON report
    carries the name as received, the text report the sanitized name. *)
Theorem current_delay_reported config (json_output : bool) w w1 w2 c
    snapshot :
  get_current_proxy config w = (Ok (PStr c), w1) ->
  get_group_delays config w1 = (Ok snapshot, w2) ->
  c <> [] ->
  print_current_delay_once config json_output w
  = (Ok tt,
     record (Printed
               match last_delay c snapshot with
               | Some delay =>
                   if json_output
                   then Json (PDict [(lit "name", PStr c);
                                     (lit "delay_ms", PInt delay)])
                   else Line (str_of_int delay ++ lit "ms" ++ tab
                              ++ sanitize_name c)
               | None =>
                   if json_output
                   then Json (PDict [(lit "name", PStr c);
                                     (lit "delay_ms", PNone)])
                   else Line (lit "delay unavailable" ++ tab
                              ++ sanitize_name c)
               end)
            w2).
Proof.
  intros Hcur Hdel Hc. unfold print_current_delay_once, bind at 1.
  rewrite Hcur. destruct c as [|a c]; [congruence|].
  cbn [truthy negb]. cbv iota. unfold bind at 1. rewrite Hdel.
  unfold bind at 1. cbn [delay_map_get]. unfold ret at 1.
  rewrite delay_map_get_last.
  destruct (last_delay (a :: c) snapshot); destruct json_output;
    reflexivity.
Qed.

End CommandProperties.

(** X19.  When the names of a snapshot are pairwise distinct, sorting it
    does not change the delay the delay map holds for a name: the delay
    [print_current_delay_once] reports for the current proxy is the one
    [auto_select_once] decides on. *)
Theorem commands_agree_on_current_delay snapshot c :
  NoDup (map name snapshot) ->
  dict_get (delay_map_of (sort_by_delay snapshot)) c
  = dict_get (delay_map_of snapshot) c.
Proof.
  intros Hn. rewrite !delay_map_get_last.
  assert (Hs : NoDup (map name (sort_by_delay snapshot))).
  { eapply Permutation_NoDup; [|exact Hn].
    apply Permutation_map, Permutation_sym, sort_by_delay_perm. }
  destruct (last_delay c snapshot) as [d|] eqn:E.
  - apply last_delay_In in E. apply last_delay_unique; [exact Hs|].
    now apply sort_by_delay_In.
  - destruct (last_delay c (sort_by_delay snapshot)) as [d|] eqn:E';
      [|reflexivity].
    apply last_delay_In in E'.
    apply (proj1 (sort_by_delay_In _ _)) in E'.
    exfalso. exact (last_delay_none _ _ E d E').
Qed.

(** ** Configuration *)

Lemma lstrip_blank s : Forall (fun ch => isspace ch = true) s -> lstrip s = [].
Proof.
  induction 1 as [|ch s Hch _ IH]; simpl; [reflexivity|]. now rewrite Hch.
Qed.

Lemma strip_blank s : Forall (fun ch => isspace ch = true) s -> strip s = [].
Proof. intros H. unfold strip, rstrip. now rewrite (lstrip_blank s H). Qed.

Lemma lstrip_slash_repeat k : lstrip_slash (repeat 47%N k) = [].
Proof. induction k as [|k IH]; simpl; [reflexivity|exact IH]. Qed.

Lemma lstrip_slash_split s :
  exists k, s = repeat 47%N k ++ lstrip_slash s.
Proof.
  induction s as [|ch s [k Hk]]; simpl; [now exists 0%nat|].
  destruct (ch =? 47)%N eqn:E.
  - apply N.eqb_eq in E. subst ch. exists (S k). simpl. now f_equal.
  - now exists 0%nat.
Qed.

Lemma lstrip_slash_head s :
  match lstrip_slash s with [] => True | ch :: _ => ch <> 47%N end.
Proof.
  induction s as [|ch s IH]; simpl; [exact I|].
  destruct (ch =? 47)%N eqn:E; [exact IH|]. now apply N.eqb_neq.
Qed.

Lemma rev_repeat_slash k : rev (repeat 47%N k) = repeat 47%N k.
Proof. apply rev_repeat. Qed.

(** [s.rstrip("/")] removes a run of slashes from the end, and all of
    it. *)
Lemma rstrip_slash_split s :
  (exists k, s = rstrip_slash s ++ repeat 47%N k) /\
  match rev (rstrip_slash s) with [] => True | ch :: _ => ch <> 47%N end.
Proof.
  unfold rstrip_slash. split.
  - destruct (lstrip_slash_split (rev s)) as [k Hk]. exists k.
    rewrite <- (rev_involutive s) at 1. rewrite Hk at 1.
    now rewrite rev_app_distr, rev_repeat_slash.
  - rewrite rev_involutive. apply lstrip_slash_head.
Qed.

Section ConfigProperties.
Context {rt : PyRuntime}.

(** The fields of a loaded configuration. *)
Lemma load_config_fields env cfg :
  load_config env = inl cfg ->
  strip (getenv env (lit "MIHOMO_CONTROLLER_URL") []) <> [] /\
  controller_url cfg
  = rstrip_slash (strip (getenv env (lit "MIHOMO_CONTROLLER_URL") [])) /\
  controller_secret cfg
  = strip (getenv env (lit "MIHOMO_CONTROLLER_SECRET") []) /\
  proxy_group cfg
  = strip (getenv env (lit "MIHOMO_PROXY_GROUP") (lit "GLOBAL")) /\
  test_url cfg
  = strip (getenv env (lit "TEST_URL") (lit "https://google.com")).
Proof.
  unfold load_config.
  destruct (strip (getenv env (lit "MIHOMO_CONTROLLER_URL") []))
    as [|a u]; [discriminate|].
  destruct (int_of_str _) as [dt|]; [|discriminate].
  destruct (int_of_str _) as [df|]; [|discriminate].
  destruct (int_of_str _) as [iv|]; [|discriminate].
  intros H; inversion H; subst. simpl. repeat split. discriminate.
Qed.

(** X20.  The controller URL of a loaded configuration is the configured
    one without surrounding whitespace and without the slashes at its end:
    it never ends with a slash, so each request path is joined to it by
    exactly the one slash the path starts with.  The secret, the group and
    the test URL carry no surrounding whitespace. *)
Theorem loaded_url_has_no_trailing_slash env cfg :
  load_config env = inl cfg ->
  (exists k,
      strip (getenv env (lit "MIHOMO_CONTROLLER_URL") [])
      = controller_url cfg ++ repeat 47%N k) /\
  match rev (controller_url cfg) with
  | [] => True
  | ch :: _ => ch <> 47%N
  end /\
  url (current_request cfg)
  = controller_url cfg ++ lit "/proxies/" ++ proxy_group cfg /\
  strip (controller_secret cfg) = controller_secret cfg /\
  strip (proxy_group cfg) = proxy_group cfg /\
  strip (test_url cfg) = test_url cfg.
Proof.
  intros H. destruct (load_config_fields _ _ H) as (_ & Hu & Hs & Hg & Ht).
  destruct (rstrip_slash_split
              (strip (getenv env (lit "MIHOMO_CONTROLLER_URL") [])))
    as [Hk Hl].
  rewrite Hu, Hs, Hg, Ht.
  split; [exact Hk|]. split; [exact Hl|].
  split; [unfold current_request; cbn [url]; now rewrite Hu, Hg|].
  repeat split; apply strip_idempotent.
Qed.

(** X21.  Without a controller URL there is no configuration: when
    [MIHOMO_CONTROLLER_URL] is unset, empty or made of whitespace only,
    [load_config] raises its own error, whatever the other variables
    hold. *)
Theorem blank_url_is_rejected env :
  Forall (fun ch => isspace ch = true)
         (getenv env (lit "MIHOMO_CONTROLLER_URL") []) ->
  load_config env = inr ControllerUrlRequired.
Proof.
  intros H. unfold load_config. now rewrite (strip_blank _ H).
Qed.

(** X22.  A controller URL made of slashes only passes the check of
    line 38, which runs before the slashes are removed: the configuration
    loads with an empty controller URL, and the requests go to the bare
    paths. *)
Theorem slashes_only_url_is_accepted env k :
  getenv env (lit "MIHOMO_CONTROLLER_URL") [] = repeat 47%N (S k) ->
  load_config env <> inr ControllerUrlRequired /\
  forall cfg,
    load_config env = inl cfg ->
    controller_url cfg = [] /\
    url (current_request cfg) = lit "/proxies/" ++ proxy_group cfg /\
    url (delay_request cfg)
    = lit "/group/" ++ proxy_group cfg ++ lit "/delay".
Proof.
  intros Hu.
  assert (Hs : strip (getenv env (lit "MIHOMO_CONTROLLER_URL") [])
               = repeat 47%N (S k)).
  { rewrite Hu. apply strip_fixed.
    - reflexivity.
    - rewrite rev_repeat_slash. reflexivity. }
  split.
  - unfold load_config. rewrite Hs. cbn [repeat].
    destruct (int_of_str _); [|discriminate].
    destruct (int_of_str _); [|discriminate].
    destruct (int_of_str _); discriminate.
  - intros cfg H.
    destruct (load_config_fields _ _ H) as (_ & Hc & _).
    rewrite Hs in Hc. unfold rstrip_slash in Hc.
    rewrite rev_repeat_slash, lstrip_slash_repeat in Hc. simpl in Hc.
    unfold current_request, delay_request. cbn [url]. rewrite Hc.
    repeat split.
Qed.

(** X23.  The three requests carry the same headers.  With a secret that
    is unset, empty or blank they carry none; otherwise they carry the one
    header [Authorization: Bearer] followed by the secret without its
    surrounding whitespace. *)
Theorem requests_carry_the_secret env cfg :
  load_config env = inl cfg ->
  let secret := strip (getenv env (lit "MIHOMO_CONTROLLER_SECRET") []) in
  headers (delay_request cfg) = headers (current_request cfg) /\
  (forall best,
      headers (switch_request cfg best) = headers (current_request cfg)) /\
  (secret = [] -> headers (current_request cfg) = []) /\
  (secret <> [] ->
   headers (current_request cfg)
   = [(lit "Authorization", lit "Bearer " ++ secret)]).
Proof.
  intros H secret.
  destruct (load_config_fields _ _ H) as (_ & _ & Hs & _).
  unfold delay_request, current_request, switch_request. cbn [headers].
  fold secret in Hs. rewrite Hs.
  split; [reflexivity|]. split; [reflexivity|].
  split; [intros ->; reflexivity|].
  intros Hne. destruct secret; [congruence|reflexivity].
Qed.

End ConfigProperties.

(** ** The further properties at concrete inputs *)

Section MoreExamples.
Existing Instance ascii_runtime.

Lemma delays_mapping_entries_witness :
  parse_group_delays delays_payload = Ok (sample_snapshot, []) /\
  In {| name := lit "B"; delay_ms := 800 |} sample_snapshot.
Proof.
  split; [reflexivity|].
  apply (proj1 (delays_mapping_entries delays_payload
                  [(lit "A", PInt 1200); (lit "B", PInt 800)] eq_refl)
           sample_snapshot [] eq_refl (lit "B") 800).
  exists (PInt 800). repeat split; [right; now left|lia].
Defined.

(** [{"name": "x", "delay": 50}] parses to the entry (delay, 50). *)
Lemma single_object_shape_never_returns_witness :
  single_entry single_object_payload
  = Ok (Some {| name := lit "x"; delay_ms := 50 |}) /\
  parse_group_delays single_object_payload
  = Ok ([{| name := lit "delay"; delay_ms := 50 |}], []) /\
  In {| name := lit "delay"; delay_ms := 50 |}
     [{| name := lit "delay"; delay_ms := 50 |}].
Proof.
  split; [reflexivity|]. split; [reflexivity|].
  apply (proj1 (single_object_shape_never_returns single_object_payload)
           {| name := lit "x"; delay_ms := 50 |}
           [{| name := lit "delay"; delay_ms := 50 |}] []);
    reflexivity.
Defined.

Lemma proxies_list_entries_witness :
  parse_group_delays proxies_payload
  = Ok ([{| name := lit "x"; delay_ms := 50 |}], []) /\
  In {| name := lit "x"; delay_ms := 50 |}
     [{| name := lit "x"; delay_ms := 50 |}].
Proof.
  split; [reflexivity|].
  apply (proxies_list_entries proxies_payload
           [entry "x" 50; entry "y" (-1)]
           [{| name := lit "x"; delay_ms := 50 |}] [] (lit "x") 50
           eq_refl eq_refl eq_refl).
  exists [(lit "name", PStr (lit "x")); (lit "delay", PInt 50)], (PInt 50).
  repeat split; [now left|lia].
Defined.

Lemma unexpected_shape_warning_witness :
  exists snapshot,
    parse_group_delays unknown_payload
    = Ok (snapshot, [WarnUnexpectedShape unknown_payload]).
Proof.
  apply (proj1 (unexpected_shape_warning unknown_payload)).
  repeat split; discriminate.
Defined.

Lemma sanitize_name_only_removes_witness :
  In 98%N (lit "  a$b c!  ") /\
  sanitize_name (lit "  a$b c!  ") = lit "ab c".
Proof.
  split; [|reflexivity].
  apply (proj1 (sanitize_name_only_removes (lit "  a$b c!  ")) 98%N).
  right. now left.
Defined.

Lemma sanitize_name_fixed_points_witness :
  sanitize_name (lit "ab c") = lit "ab c".
Proof.
  apply (proj2 (sanitize_name_fixed_points (lit "ab c"))).
  split; [repeat constructor|]. split; reflexivity.
Defined.

(** Of two entries tied for the minimum the first one is best. *)
Lemma best_is_first_minimum_witness :
  exists before after,
    tied_snapshot
    = before ++ {| name := lit "B"; delay_ms := 3 |} :: after /\
    Forall (fun p => 3 < delay_ms p) before /\
    Forall (fun p => 3 <= delay_ms p) after.
Proof.
  apply (best_is_first_minimum tied_snapshot
           {| name := lit "B"; delay_ms := 3 |}
           [{| name := lit "C"; delay_ms := 3 |};
            {| name := lit "A"; delay_ms := 5 |}]).
  reflexivity.
Defined.

Lemma cycle_reports_once_witness :
  exists o,
    outputs (events (snd (auto_select_once sample_config true
                            switching_world))) = [o].
Proof.
  destruct (cycle_reports_once sample_config true switching_world (Ok tt)
              (snd (auto_select_once sample_config true switching_world))
              eq_refl) as [(o & Ho) _].
  exists o. exact Ho.
Defined.

Lemma no_delay_data_reported_witness :
  fetch_fails (after_current no_delays_world) /\
  outputs (events (snd (auto_select_once sample_config false
                          no_delays_world)))
  = [Line (lit "No delay data returned")].
Proof.
  assert (Hf : fetch_fails (after_current no_delays_world)) by exact I.
  split; [exact Hf|].
  destruct (no_delay_data_reported sample_config false no_delays_world
              (after_current no_delays_world) (PStr (lit "A")) eq_refl)
    as [_ Hrun].
  rewrite (Hrun Hf). reflexivity.
Defined.

Lemma current_fetch_failure_ends_cycle_witness :
  fetch_fails flaky_world /\
  exists e,
    auto_select_once sample_config true flaky_world
    = (Raise e, sent (current_request sample_config) flaky_world).
Proof.
  assert (Hf : fetch_fails flaky_world) by exact I.
  split; [exact Hf|].
  destruct (current_fetch_failure_ends_cycle sample_config true flaky_world
              Hf) as (e & Hrun & _).
  now exists e.
Defined.

Lemma unhashable_current_raises_witness :
  fst (auto_select_once sample_config true
         (odd_current_world (PList [PStr (lit "A")])))
  = Raise TypeError.
Proof.
  rewrite (unhashable_current_raises sample_config true
             (odd_current_world (PList [PStr (lit "A")]))
             (after_current (odd_current_world (PList [PStr (lit "A")])))
             (after_delays (odd_current_world (PList [PStr (lit "A")])))
             (PList [PStr (lit "A")]) sample_snapshot
             eq_refl eq_refl).
  - reflexivity.
  - discriminate.
  - left. now exists (PStr (lit "A")), [].
Defined.


(** A signal during the first of five cycles: the loop returns after the
    three requests and the one report of that cycle. *)
Lemma signal_ends_loop_after_cycle_witness :
  exists w2,
    monitor_loop 5 sample_config true stopping_world = (Ok (Some tt), w2) /\
    map method (requests (events w2)) = [PUT; GET; GET] /\
    List.length (outputs (events w2)) = 1%nat.
Proof.
  rewrite (signal_ends_loop_after_cycle sample_config true stopping_world
             (snd (auto_select_once sample_config true stopping_world))
             [] 4 eq_refl eq_refl).
  eexists. split; [reflexivity|]. split; reflexivity.
Defined.

Lemma loop_ends_on_signal_only_witness :
  exists n,
    stops two_cycle_world = repeat false n ++ [true] /\
    List.length
      (outputs (events (snd (monitor_loop 5 sample_config true
                               two_cycle_world))))
    = (n + 1)%nat.
Proof.
  destruct (loop_ends_on_signal_only 5 sample_config true two_cycle_world
              (snd (monitor_loop 5 sample_config true two_cycle_world))
              eq_refl) as (n & Hn & Hl).
  exists n. split; [exact Hn|exact Hl].
Defined.

Lemma print_delays_once_never_raises_witness :
  fst (print_delays_once sample_config true (world_of [Reply 500 None]))
  = Ok tt /\
  outputs (events (snd (print_delays_once sample_config true
                          (world_of [Reply 500 None]))))
  = [Line (lit "[]")].
Proof.
  destruct (print_delays_once_never_raises sample_config true
              (world_of [Reply 500 None])) as (w' & reports & Hrun & _).
  rewrite Hrun. split; [reflexivity|].
  vm_compute in Hrun. inversion Hrun. reflexivity.
Defined.

Lemma print_delays_once_top_ten_witness :
  outputs (events (snd (print_delays_once sample_config false
                          (world_of [Reply 200
                                       (Some (PDict delays_payload))]))))
  = [Line (lit "1200ms" ++ tab ++ lit "A");
     Line (lit "800ms" ++ tab ++ lit "B")].
Proof.
  destruct (print_delays_once_top_ten sample_config false
              (world_of [Reply 200 (Some (PDict delays_payload))])
              sample_snapshot _ eq_refl)
    as (top & left_out & w' & _ & _ & _ & _ & _ & Hrun & _).
  rewrite Hrun. vm_compute in Hrun. inversion Hrun. reflexivity.
Defined.

Lemma current_not_found_skips_delays_witness :
  print_current_delay_once sample_config false no_current_world
  = (Ok tt, record (Printed (Line (lit "Current proxy not found")))
              (after_current no_current_world)) /\
  List.length (requests (events (after_current no_current_world))) = 1%nat.
Proof.
  split; [|reflexivity].
  apply (current_not_found_skips_delays sample_config false
           no_current_world (after_current no_current_world) PNone);
    reflexivity.
Defined.

Lemma current_delay_reported_witness :
  outputs (events (snd (print_current_delay_once sample_config false
                          switching_world)))
  = [Line (lit "1200ms" ++ tab ++ lit "A")].
Proof.
  rewrite (current_delay_reported sample_config false switching_world
             (after_current switching_world)
             (after_delays switching_world) (lit "A") sample_snapshot
             eq_refl eq_refl).
  - reflexivity.
  - discriminate.
Defined.

Lemma commands_agree_on_current_delay_witness :
  dict_get (delay_map_of (sort_by_delay tied_snapshot)) (lit "A")
  = dict_get (delay_map_of tied_snapshot) (lit "A").
Proof.
  apply (commands_agree_on_current_delay tied_snapshot (lit "A")).
  repeat constructor; simpl; intuition discriminate.
Defined.

(** With repeated names the two commands differ: between x at 5 ms and x
    at 3 ms the unsorted map holds 3 and the sorted one 5. *)
Example repeated_name_delays_differ :
  dict_get (delay_map_of [{| name := lit "x"; delay_ms := 5 |};
                          {| name := lit "x"; delay_ms := 3 |}]) (lit "x")
  = Some 3 /\
  dict_get (delay_map_of
              (sort_by_delay [{| name := lit "x"; delay_ms := 5 |};
                              {| name := lit "x"; delay_ms := 3 |}]))
           (lit "x")
  = Some 5.
Proof. split; reflexivity. Qed.

Lemma loaded_url_has_no_trailing_slash_witness :
  exists cfg,
    load_config sample_env = inl cfg /\
    controller_url cfg = lit "http://127.0.0.1:9090" /\
    url (current_request cfg) = lit "http://127.0.0.1:9090/proxies/GLOBAL" /\
    delay_timeout_ms cfg = 3000 /\
    auto_select_diff_ms cfg = 300 /\
    monitor_interval_s cfg = 60.
Proof.
  destruct (load_config sample_env) as [cfg|err] eqn:E;
    [|vm_compute in E; discriminate E].
  exists cfg. split; [reflexivity|].
  destruct (loaded_url_has_no_trailing_slash sample_env cfg E)
    as (_ & _ & Hurl & _).
  vm_compute in E. inversion E; subst cfg. repeat split.
Defined.

Lemma blank_url_is_rejected_witness :
  load_config [(lit "MIHOMO_CONTROLLER_URL", lit "   ")]
  = inr ControllerUrlRequired /\
  load_config [] = inr ControllerUrlRequired.
Proof.
  split; apply blank_url_is_rejected; repeat constructor.
Defined.

Lemma slashes_only_url_is_accepted_witness :
  exists cfg,
    load_config slash_env = inl cfg /\
    controller_url cfg = [] /\
    url (current_request cfg) = lit "/proxies/GLOBAL".
Proof.
  destruct (load_config slash_env) as [cfg|err] eqn:E;
    [|vm_compute in E; discriminate E].
  exists cfg. split; [reflexivity|].
  destruct (slashes_only_url_is_accepted slash_env 0 eq_refl) as [_ H].
  destruct (H cfg E) as (Hc & Hu & _).
  split; [exact Hc|]. rewrite Hu.
  vm_compute in E. inversion E; subst cfg. reflexivity.
Defined.

Lemma requests_carry_the_secret_witness :
  exists cfg,
    load_config sample_env = inl cfg /\
    headers (current_request cfg)
    = [(lit "Authorization", lit "Bearer s3cret")].
Proof.
  destruct (load_config sample_env) as [cfg|err] eqn:E;
    [|vm_compute in E; discriminate E].
  exists cfg. split; [reflexivity|].
  destruct (requests_carry_the_secret sample_env cfg E) as (_ & _ & _ & H).
  rewrite H; [reflexivity|discriminate].
Defined.

End MoreExamples.
